(** * Transparent-Padder: the padding pipeline of [pad_alpha.py]

    A shallow embedding of [smooth_pad], [flood_fill_pad], [auto_set_params],
    [load_mask_image] and the core of [pad_image], followed by the properties
    the specification states about them.

    Conventions of the embedding
    - a NumPy array of shape (h, w) is a list of h rows ([grid]); an RGBA
      array of shape (h, w, 4) is a grid of [pixel] records;
    - [uint8] values are integers in [Z]; a cast to [uint8] truncates towards
      zero and wraps modulo 256;
    - finite floating-point values are the rationals they denote ([Q]) and the
      arithmetic on them is exact.  The sums of [smooth_pad] are sums of
      integers below 2^24 whenever the window side is at most 255, so
      [float32] represents them exactly there; the arithmetic of
      [auto_set_params] is exact for every image side below 2^51.  The one
      place where the source leaves the finite values, the division of the
      alpha fade, is modelled with an explicit [NaN]. *)

From Stdlib Require Import ZArith QArith Qminmax Qround Lia.
From stdpp Require Import base list.

(** ** Grids: arrays of shape (h, w) *)

Abbreviation grid A := (list (list A)).

(** [g[i, j]], when (i, j) is inside the array. *)
Definition lookup2 {A} (g : grid A) (i j : nat) : option A :=
  match g !! i with
  | Some row => row !! j
  | None => None
  end.

(** [g[i, j]] with a value [d] standing for a position outside the array. *)
Definition at2 {A} (d : A) (g : grid A) (i j : nat) : A :=
  default d (lookup2 g i j).

(** An elementwise transformation that may read the position. *)
Definition imap2d {A B} (f : nat → nat → A → B) (g : grid A) : grid B :=
  imap (λ i row, imap (f i) row) g.

(** An elementwise transformation. *)
Definition map2d {A B} (f : A → B) (g : grid A) : grid B :=
  (λ row : list A, f <$> row) <$> g.

(** PIL's [img.size]: (width, height). *)
Definition size {A} (g : grid A) : nat * nat :=
  (match g with [] => 0 | row :: _ => length row end, length g).

(** ** Pixels: the last axis of the RGBA array *)

Record pixel := Px { chR : Z; chG : Z; chB : Z; chA : Z }.

Abbreviation image := (list (list pixel)).

(** [p[c]] *)
Definition get_ch (c : nat) (p : pixel) : Z :=
  match c with
  | 0 => chR p
  | 1 => chG p
  | 2 => chB p
  | _ => chA p
  end.

(** [p[c] = v] *)
Definition set_ch (c : nat) (v : Z) (p : pixel) : pixel :=
  match c with
  | 0 => Px v (chG p) (chB p) (chA p)
  | 1 => Px (chR p) v (chB p) (chA p)
  | 2 => Px (chR p) (chG p) v (chA p)
  | _ => Px (chR p) (chG p) (chB p) v
  end.

(** [p[:3]] *)
Definition rgb (p : pixel) : Z * Z * Z := (chR p, chG p, chB p).

Definition black : pixel := Px 0 0 0 0.

(** ** Floating-point helpers *)

(** C conversion of a finite float to an integer: truncation towards zero. *)
Definition Qtruncate (q : Q) : Z := Z.quot (Qnum q) (Z.pos (Qden q)).

(** [x.astype(np.uint8)] for a finite [x]. *)
Definition uint8_of_float (q : Q) : Z := (Qtruncate q) mod 256.

(** [b.astype(np.float32)] for a boolean [b]. *)
Definition float_of_bool (b : bool) : Q := if b then 1%Q else 0%Q.

(** [np.sum] *)
Definition Qsum (l : list Q) : Q := foldr Qplus 0%Q l.

(** ** [scipy.ndimage.generic_filter(input, np.sum, size=size, mode='constant', cval=0.0)] *)

(** The input extended by [cval = 0.0] outside its bounds. *)
Definition padded (input : grid Q) (i j : Z) : Q :=
  if ((0 <=? i) && (0 <=? j))%Z
  then at2 0%Q input (Z.to_nat i) (Z.to_nat j)
  else 0%Q.

(** The offsets of a window of [size] cells centred on its origin. *)
Definition offsets (size : nat) : list Z :=
  (λ k, Z.of_nat k - Z.of_nat (size / 2))%Z <$> seq 0 size.

(** The cells of the square window around (i, j). *)
Definition window (input : grid Q) (size : nat) (i j : nat) : list Q :=
  di ← offsets size;
  dj ← offsets size;
  [padded input (Z.of_nat i + di) (Z.of_nat j + dj)].

Definition generic_filter_sum (input : grid Q) (size : nat) : grid Q :=
  imap2d (λ i j _, Qsum (window input size i j)) input.

(** ** [smooth_pad] *)

(** [np.divide(sum_c, sum_w, out=np.zeros_like(sum_c), where=sum_w > 0)] *)
Definition divide_where_positive (sum_c sum_w : grid Q) : grid Q :=
  imap2d (λ i j s,
            let w := at2 0%Q sum_w i j in
            if negb (Qle_bool w 0) then (s / w)%Q else 0%Q) sum_c.

(** [output[:, :, c][sel] = vals[sel]], [output] being a [uint8] array. *)
Definition assign_where (c : nat) (output : image) (sel : grid bool)
    (vals : grid Q) : image :=
  imap2d (λ i j p,
            if at2 false sel i j
            then set_ch c (uint8_of_float (at2 0%Q vals i j)) p
            else p) output.

(** [avg_c] of the loop body, for channel [c]. *)
Definition avg_channel (data : image) (mask : grid bool) (radius c : nat)
    : grid Q :=
  let weight_mask := map2d float_of_bool mask in
  let channel := map2d (λ p, inject_Z (get_ch c p)) data in
  let sum_c :=
    generic_filter_sum (zip_with (zip_with Qmult) channel weight_mask)
                       (2 * radius + 1) in
  let sum_w := generic_filter_sum weight_mask (2 * radius + 1) in
  divide_where_positive sum_c sum_w.

(** [~mask] *)
Definition invert (mask : grid bool) : grid bool := map2d negb mask.

(** The final [output.astype(np.uint8)] copies an array that is [uint8]
    already, so it does not show in the model. *)
Definition smooth_pad (data : image) (mask : grid bool) (radius : nat)
    : image :=
  foldl (λ output c,
           assign_where c output (invert mask) (avg_channel data mask radius c))
        data [0; 1; 2].

(** ** [scipy.ndimage.distance_transform_edt(input, return_indices=True)]

    For every cell, the indices of the nearest background cell (a cell where
    [input] is false) under the Euclidean distance.  SciPy does not document
    which of several equidistant background cells it returns; the model takes
    the first one in row-major order and no property below depends on that
    choice.  When the input has no background cell at all, SciPy leaves the
    index arrays at (-1, 0). *)

Definition sqdist (p q : nat * nat) : Z :=
  ((Z.of_nat p.1 - Z.of_nat q.1) ^ 2 + (Z.of_nat p.2 - Z.of_nat q.2) ^ 2)%Z.

(** The positions of the background cells, in row-major order. *)
Definition background (input : grid bool) : list (nat * nat) :=
  concat (imap (λ i row,
                  omap id (imap (λ j (b : bool),
                                   if b then None else Some (i, j)) row))
               input).

Definition closer (p : nat * nat) (best c : nat * nat) : nat * nat :=
  if (sqdist p c <? sqdist p best)%Z then c else best.

Definition nearest (p : nat * nat) (cands : list (nat * nat))
    : option (nat * nat) :=
  match cands with
  | [] => None
  | c :: rest => Some (foldl (closer p) c rest)
  end.

Definition distance_transform_edt_indices (input : grid bool) : grid (Z * Z) :=
  let bg := background input in
  imap2d (λ i j _,
            match nearest (i, j) bg with
            | Some q => (Z.of_nat q.1, Z.of_nat q.2)
            | None => ((-1)%Z, 0%Z)
            end) input.

(** ** [flood_fill_pad] *)

(** NumPy integer indexing: a negative index counts from the end. *)
Definition wrap_index (k : Z) (len : nat) : nat :=
  Z.to_nat (if (k <? 0)%Z then k + Z.of_nat len else k)%Z.

(** [data[i_idx, j_idx]] at one position of the index arrays. *)
Definition index_pixel (data : image) (ij : Z * Z) : pixel :=
  let i := wrap_index ij.1 (length data) in
  let row := default [] (data !! i) in
  default black (row !! wrap_index ij.2 (length row)).

(** [np.any] *)
Definition any2 (g : grid bool) : bool := existsb (existsb id) g.

(** [result[:, :, c][inverse_mask] = data[i_idx, j_idx, c][inverse_mask]] *)
Definition assign_indexed (c : nat) (result data : image)
    (inverse_mask : grid bool) (idx : grid (Z * Z)) : image :=
  imap2d (λ i j p,
            if at2 false inverse_mask i j
            then set_ch c (get_ch c (index_pixel data (at2 (0, 0)%Z idx i j))) p
            else p) result.

Definition flood_fill_pad (data : image) (mask : grid bool) : image :=
  let inverse_mask := invert mask in
  if negb (any2 inverse_mask) then data
  else
    let idx := distance_transform_edt_indices inverse_mask in
    foldl (λ result c, assign_indexed c result data inverse_mask idx)
          data [0; 1; 2].

(** ** [auto_set_params] *)

(** Python's [int(x)] for a finite float. *)
Definition int_of_float (x : Q) : Z := Qtruncate x.

(** Python's two-argument [max(a, b)] and [min(a, b)]: the first argument
    unless the second is strictly larger (smaller). *)
Definition py_max (a b : Q) : Q := if negb (Qle_bool b a) then b else a.
Definition py_min (a b : Q) : Q := if negb (Qle_bool a b) then b else a.

(** Rounding to the nearest integer, a tie going to the even neighbour. *)
Definition round_half_even (x : Q) : Z :=
  let n := Qnum x in
  let d := Z.pos (Qden x) in
  let f := (n / d)%Z in
  match (2 * (n mod d) ?= d)%Z with
  | Lt => f
  | Gt => (f + 1)%Z
  | Eq => if Z.even f then f else (f + 1)%Z
  end.

(** Python's [round(x, 1)]: the nearest multiple of one tenth, a tie going to
    the even tenth (the float returned is the one nearest to that decimal). *)
Definition round1 (x : Q) : Q := (round_half_even (x * 10) # 10)%Q.

Definition auto_set_params (image_size : nat * nat) : Z * Q :=
  let '(w, h) := image_size in
  let max_dim := inject_Z (Z.of_nat (Nat.max w h)) in
  let radius := Z.max 2 (int_of_float (max_dim / 512 * 3)) in
  let sigma := round1 (py_min 10 (py_max 1 (max_dim / 1024 * 3))) in
  (radius, sigma).

(** The formulas of the specification's parameter auto-tuner, word for word:
    [radius = max(2, floor(maxDim / 512 * 3))] and
    [sigma = clamp(round(maxDim / 1024 * 3, 1 decimal), 1.0, 10.0)]. *)
Definition clamp (x lo hi : Q) : Q := Qmin (Qmax x lo) hi.

Definition spec_radius (maxDim : nat) : Z :=
  Z.max 2 (Qfloor (inject_Z (Z.of_nat maxDim) / 512 * 3)).

Definition spec_sigma (maxDim : nat) : Q :=
  clamp (round1 (inject_Z (Z.of_nat maxDim) / 1024 * 3)) 1 10.

(** ** [load_mask_image] *)

(** The [ValueError] raised when the sizes differ; the handler around it
    prints the message and calls [sys.exit(1)]. *)
Inductive mask_error :=
  | MaskSizeMismatch (mask_size expected_size : nat * nat).

(** [mask_img] is the decoded mask after [convert("L")]. *)
Definition load_mask_image (mask_img : grid Z) (expected_size : nat * nat)
    : mask_error + grid bool :=
  if decide (size mask_img ≠ expected_size)
  then inl (MaskSizeMismatch (size mask_img) expected_size)
  else inr (map2d (λ v, 128 <? v)%Z mask_img).

(** ** The alpha fade of [pad_image] *)

(** A [float32] value: not-a-number, an infinity, or a finite value. *)
Inductive npfloat :=
  | NaN
  | PInf
  | NInf
  | Fin (q : Q).

(** IEEE division of two finite values. *)
Definition fdiv (a b : Q) : npfloat :=
  if Qeq_bool b 0
  then (if Qeq_bool a 0 then NaN else if Qle_bool 0 a then PInf else NInf)
  else Fin (a / b).

(** [np.clip(x, 0, 1)] *)
Definition clip01 (x : npfloat) : npfloat :=
  match x with
  | NaN => NaN
  | PInf => Fin 1
  | NInf => Fin 0
  | Fin q => Fin (Qmin (Qmax q 0) 1)
  end.

(** [x * 255] *)
Definition times255 (x : npfloat) : npfloat :=
  match x with
  | Fin q => Fin (q * 255)
  | other => other
  end.

(** [np.maximum(a, x)] for a finite [a]: a NaN operand is propagated. *)
Definition maximum (a : Q) (x : npfloat) : npfloat :=
  match x with
  | NaN => NaN
  | PInf => PInf
  | NInf => Fin a
  | Fin q => Fin (Qmax a q)
  end.

(** [x.astype(np.uint8)].  C leaves the conversion of a NaN or an infinity
    undefined; the conversion NumPy compiles to on x86-64 and AArch64 gives 0,
    with a RuntimeWarning. *)
Definition astype_uint8 (x : npfloat) : Z :=
  match x with
  | Fin q => uint8_of_float q
  | _ => 0%Z
  end.

(** [a.min()] and [a.max()] over the whole array. *)
Definition grid_min (a : grid Q) : Q :=
  match concat a with
  | [] => 0%Q
  | x :: rest => foldl Qmin x rest
  end.

Definition grid_max (a : grid Q) : Q :=
  match concat a with
  | [] => 0%Q
  | x :: rest => foldl Qmax x rest
  end.

(** [np.clip((distance - distance.min()) / (distance.max() - distance.min()), 0, 1)] *)
Definition normalize (distance : grid Q) : grid npfloat :=
  let lo := grid_min distance in
  let hi := grid_max distance in
  map2d (λ d, clip01 (fdiv (d - lo) (hi - lo))) distance.

(** [np.maximum(alpha, normalized * 255).astype(np.uint8)], [distance] being
    the array [gaussian_filter] returned. *)
Definition faded_alpha (alpha : grid Z) (distance : grid Q) : grid Z :=
  let normalized := normalize distance in
  imap2d (λ i j a,
            astype_uint8 (maximum (inject_Z a)
                                  (times255 (at2 (Fin 0) normalized i j))))
         alpha.

(** [1 - fade_mask], with [fade_mask = (alpha < 255).astype(np.float32)]. *)
Definition opaque_indicator (alpha : grid Z) : grid Q :=
  map2d (λ a, 1 - float_of_bool (a <? 255)%Z)%Q alpha.

(** ** [pad_image] *)

(** How a run ends: [sys.exit(1)] after a mask error, the early [return] of
    an image without transparency, or the array handed to [Image.fromarray]
    for saving. *)
Inductive outcome :=
  | SysExit1 (e : mask_error)
  | NothingToPad
  | Saved (padded_data : image).

(** [data[alpha < 255, :3] = 0] *)
Definition zero_transparent (data : image) : image :=
  map2d (λ p, if (chA p <? 255)%Z then Px 0 0 0 (chA p) else p) data.

(** [padded_data[:, :, 3] = faded_alpha] *)
Definition assign_alpha (padded_data : image) (alpha : grid Z) : image :=
  imap2d (λ i j p, set_ch 3 (at2 0%Z alpha i j) p) padded_data.

(** [np.concatenate([padded_data[:, :, :3], np.full((h, w, 1), 255)], axis=2)] *)
Definition make_opaque (padded_data : image) : image :=
  map2d (λ p, Px (chR p) (chG p) (chB p) 255) padded_data.

(** [pad_image] between decoding and encoding.  [data] is the decoded RGBA
    array, [uv_mask] the decoded mask image when a mask path is given, and
    [gaussian_filter] is [scipy.ndimage.gaussian_filter].  The result pairs
    the outcome with the contents of the array [data] when the run ends. *)
Definition pad_image (gaussian_filter : grid Q → Q → grid Q)
    (data : image) (radius : option nat) (blur_sigma : option Q)
    (uv_mask : option (grid Z)) (auto_params : bool) : outcome * image :=
  let '(radius, blur_sigma) :=
    if auto_params
       || (bool_decide (radius = None) && bool_decide (blur_sigma = None))
    then
      let '(auto_radius, auto_sigma) := auto_set_params (size data) in
      (Some (default (Z.to_nat auto_radius) radius),
       Some (default auto_sigma blur_sigma))
    else (radius, blur_sigma) in
  let radius := default 3 radius in
  let blur_sigma := default 3%Q blur_sigma in
  match uv_mask with
  | Some mask_img =>
      match load_mask_image mask_img (size data) with
      | inl e => (SysExit1 e, data)
      | inr mask =>
          let padded_data := smooth_pad data mask radius in
          let padded_data := flood_fill_pad padded_data mask in
          (Saved (make_opaque padded_data), data)
      end
  | None =>
      let alpha := map2d chA data in
      if forallb (forallb (λ a, a =? 255)%Z) alpha then (NothingToPad, data)
      else
        let mask := map2d (λ a, a =? 255)%Z alpha in
        let data := zero_transparent data in
        let padded_data := smooth_pad data mask radius in
        let padded_data := flood_fill_pad padded_data mask in
        let alpha := map2d chA data in
        let distance := gaussian_filter (opaque_indicator alpha) blur_sigma in
        (Saved (assign_alpha padded_data (faded_alpha alpha distance)), data)
  end.

(** ** Vocabulary of the properties *)

(** A well-formed array of shape (h, w): h rows of w cells each. *)
Definition has_shape {A} (h w : nat) (g : grid A) : Prop :=
  length g = h ∧ Forall (λ row, length row = w) g.

(** The value [smooth_pad] writes to channel [c] of an invalid pixel. *)
Definition smooth_value (data : image) (mask : grid bool) (radius c : nat)
    (i j : nat) : Z :=
  uint8_of_float (at2 0%Q (avg_channel data mask radius c) i j).

(** The pixel [flood_fill_pad] copies the colour of an invalid pixel from. *)
Definition flood_source (data : image) (mask : grid bool) (i j : nat)
    : pixel :=
  index_pixel data
    (at2 (0, 0)%Z (distance_transform_edt_indices (invert mask)) i j).

(** No valid pixel within [radius] of (i, j), in either direction. *)
Definition no_valid_within (mask : grid bool) (radius i j : nat) : Prop :=
  ∀ i' j', i ≤ i' + radius → i' ≤ i + radius →
           j ≤ j' + radius → j' ≤ j + radius →
           lookup2 mask i' j' ≠ Some true.

(** * Properties *)

(** ** Grids *)

Section grid_facts.
Context {A B : Type}.
Implicit Types (g : grid A) (i j : nat).

Lemma lookup2_imap2d (f : nat → nat → A → B) g i j :
  lookup2 (imap2d f g) i j = f i j <$> lookup2 g i j.
Proof.
  unfold lookup2, imap2d. rewrite list_lookup_imap.
  destruct (g !! i) as [row|]; simpl; [|done].
  by rewrite list_lookup_imap.
Qed.

Lemma lookup2_map2d (f : A → B) g i j :
  lookup2 (map2d f g) i j = f <$> lookup2 g i j.
Proof.
  unfold lookup2, map2d. rewrite list_lookup_fmap.
  destruct (g !! i) as [row|]; simpl; [|done].
  by rewrite list_lookup_fmap.
Qed.

Lemma at2_Some (d : A) g i j x : lookup2 g i j = Some x → at2 d g i j = x.
Proof. unfold at2. by intros ->. Qed.

Lemma at2_None (d : A) g i j : lookup2 g i j = None → at2 d g i j = d.
Proof. unfold at2. by intros ->. Qed.
End grid_facts.

(** ** Channels *)

Lemma invert_true mask i j :
  lookup2 mask i j = Some true → at2 false (invert mask) i j = false.
Proof.
  intros H. unfold invert. apply at2_Some. by rewrite lookup2_map2d, H.
Qed.

Lemma invert_false mask i j :
  lookup2 mask i j = Some false → at2 false (invert mask) i j = true.
Proof.
  intros H. unfold invert. apply at2_Some. by rewrite lookup2_map2d, H.
Qed.

(** ** [smooth_pad], pixel by pixel *)

Lemma lookup2_smooth_pad data mask radius i j :
  lookup2 (smooth_pad data mask radius) i j =
  (λ p, if at2 false (invert mask) i j
        then Px (smooth_value data mask radius 0 i j)
                (smooth_value data mask radius 1 i j)
                (smooth_value data mask radius 2 i j) (chA p)
        else p) <$> lookup2 data i j.
Proof.
  unfold smooth_pad, assign_where; simpl.
  rewrite !lookup2_imap2d.
  destruct (lookup2 data i j) as [p|]; simpl; [|done].
  by destruct (at2 false (invert mask) i j).
Qed.

(** ** [flood_fill_pad], pixel by pixel *)

Lemma lookup2_flood_fill_pad data mask i j :
  lookup2 (flood_fill_pad data mask) i j =
  (λ p, if at2 false (invert mask) i j
        then Px (chR (flood_source data mask i j))
                (chG (flood_source data mask i j))
                (chB (flood_source data mask i j)) (chA p)
        else p) <$> lookup2 data i j.
Proof.
  unfold flood_fill_pad.
  destruct (any2 (invert mask)) eqn:Hany; simpl.
  - unfold assign_indexed. rewrite !lookup2_imap2d.
    destruct (lookup2 data i j) as [p|]; simpl; [|done].
    by destruct (at2 false (invert mask) i j).
  - assert (at2 false (invert mask) i j = false) as ->.
    { unfold at2, lookup2.
      destruct (invert mask !! i) as [row|] eqn:Hrow; simpl; [|done].
      destruct (row !! j) as [b|] eqn:Hb; simpl; [|done].
      destruct b; [|done].
      assert (any2 (invert mask) = true) as Ht; [|congruence].
      unfold any2. apply existsb_exists. exists row. split.
      - apply list_elem_of_In. by eapply list_elem_of_lookup_2.
      - apply existsb_exists. exists true. split; [|done].
        apply list_elem_of_In. by eapply list_elem_of_lookup_2. }
    by destruct (lookup2 data i j).
Qed.

Lemma smooth_pad_valid data mask radius i j :
  lookup2 mask i j = Some true →
  lookup2 (smooth_pad data mask radius) i j = lookup2 data i j.
Proof.
  intros Hvalid. rewrite lookup2_smooth_pad, (invert_true _ _ _ Hvalid).
  by destruct (lookup2 data i j).
Qed.

Lemma flood_fill_pad_valid data mask i j :
  lookup2 mask i j = Some true →
  lookup2 (flood_fill_pad data mask) i j = lookup2 data i j.
Proof.
  intros Hvalid. rewrite lookup2_flood_fill_pad, (invert_true _ _ _ Hvalid).
  by destruct (lookup2 data i j).
Qed.

(** C1. Valid-pixel invariance: at every position where the mask is true, the
    RGB after [smooth_pad] is the RGB before it, the RGB after
    [flood_fill_pad] is the RGB before it, and so is the RGB after the two
    stages in sequence; neither stage overwrites a valid pixel. *)
Theorem valid_pixel_invariance (data : image) (mask : grid bool)
    (radius i j : nat) :
  lookup2 mask i j = Some true →
  rgb <$> lookup2 (smooth_pad data mask radius) i j = rgb <$> lookup2 data i j
  ∧ rgb <$> lookup2 (flood_fill_pad data mask) i j = rgb <$> lookup2 data i j
  ∧ rgb <$> lookup2 (flood_fill_pad (smooth_pad data mask radius) mask) i j
    = rgb <$> lookup2 data i j.
Proof.
  intros Hvalid.
  by rewrite !flood_fill_pad_valid, !smooth_pad_valid.
Qed.

Lemma valid_pixel_invariance_witness :
  let data := [[Px 1 2 3 255; Px 9 9 9 0]] in
  let mask := [[true; false]] in
  rgb <$> lookup2 (smooth_pad data mask 1) 0 0 = Some (1, 2, 3)%Z
  ∧ rgb <$> lookup2 (flood_fill_pad data mask) 0 0 = Some (1, 2, 3)%Z
  ∧ rgb <$> lookup2 (flood_fill_pad (smooth_pad data mask 1) mask) 0 0
    = Some (1, 2, 3)%Z.
Proof.
  exact (valid_pixel_invariance [[Px 1 2 3 255; Px 9 9 9 0]] [[true; false]]
           1 0 0 eq_refl).
Defined.

(** C10. Alpha is framed out: at every position, [smooth_pad] and
    [flood_fill_pad] leave channel 3 as it was; they only write the three
    colour channels. *)
Theorem alpha_channel_untouched (data : image) (mask : grid bool)
    (radius i j : nat) :
  get_ch 3 <$> lookup2 (smooth_pad data mask radius) i j
    = get_ch 3 <$> lookup2 data i j
  ∧ get_ch 3 <$> lookup2 (flood_fill_pad data mask) i j
    = get_ch 3 <$> lookup2 data i j.
Proof.
  rewrite lookup2_flood_fill_pad, lookup2_smooth_pad.
  destruct (lookup2 data i j) as [p|]; simpl; [|done].
  by destruct (at2 false (invert mask) i j).
Qed.

(** ** The weight sum of an empty neighbourhood *)

Lemma Qsum_zeros (l : list Q) : Forall (λ x, x = 0%Q) l → Qsum l = 0%Q.
Proof.
  induction 1 as [|x l -> _ IH]; [done|].
  unfold Qsum in *; simpl. by rewrite IH.
Qed.

Lemma elem_of_offsets (radius : nat) (d : Z) :
  d ∈ offsets (2 * radius + 1) → (- Z.of_nat radius ≤ d ≤ Z.of_nat radius)%Z.
Proof.
  unfold offsets. intros (k & -> & Hk)%list_elem_of_fmap.
  apply elem_of_seq in Hk.
  replace ((2 * radius + 1) / 2) with radius; [lia|].
  apply (Nat.div_unique _ 2 radius 1); lia.
Qed.

Lemma weight_sum_zero (mask : grid bool) (radius i j : nat) :
  no_valid_within mask radius i j →
  Qsum (window (map2d float_of_bool mask) (2 * radius + 1) i j) = 0%Q.
Proof.
  intros Hno. apply Qsum_zeros, Forall_forall. intros x Hx.
  unfold window in Hx.
  apply list_elem_of_bind in Hx as (di & Hx & Hdi).
  apply list_elem_of_bind in Hx as (dj & Hx & Hdj).
  apply list_elem_of_singleton in Hx as ->.
  apply elem_of_offsets in Hdi, Hdj.
  unfold padded.
  destruct ((0 <=? Z.of_nat i + di)%Z && (0 <=? Z.of_nat j + dj)%Z) eqn:Hin;
    [|done].
  apply andb_prop in Hin as [Hi Hj].
  apply Z.leb_le in Hi, Hj.
  unfold at2. rewrite lookup2_map2d.
  specialize (Hno (Z.to_nat (Z.of_nat i + di)) (Z.to_nat (Z.of_nat j + dj))).
  destruct (lookup2 mask _ _) as [[]|]; simpl; [|done..].
  exfalso. apply Hno; [lia..|done].
Qed.

Lemma smooth_value_unreachable data mask radius c i j :
  no_valid_within mask radius i j →
  smooth_value data mask radius c i j = 0%Z.
Proof.
  intros Hno. unfold smooth_value, avg_channel, divide_where_positive.
  unfold at2 at 1. rewrite lookup2_imap2d.
  destruct (lookup2 (generic_filter_sum _ _) i j) as [s|]; simpl; [|done].
  unfold generic_filter_sum at 1. unfold at2. rewrite lookup2_imap2d.
  destruct (lookup2 (map2d float_of_bool mask) i j); simpl; [|done].
  pose proof (weight_sum_zero _ _ _ _ Hno) as Hw. simpl in Hw.
  by rewrite Hw.
Qed.

(** C2, as the code has it. An invalid pixel with no valid pixel in its
    (2r+1)x(2r+1) window (weight sum 0) gets the zero that [np.divide] leaves
    in its [out] array: its RGB becomes (0, 0, 0).  That is its value on
    entry exactly when that value was zero already, as it is after the
    zeroing step of the alpha-driven mode. *)
Theorem unreachable_pixel_zeroed (data : image) (mask : grid bool)
    (radius i j : nat) (p : pixel) :
  lookup2 data i j = Some p →
  lookup2 mask i j = Some false →
  no_valid_within mask radius i j →
  rgb <$> lookup2 (smooth_pad data mask radius) i j = Some (0, 0, 0)%Z
  ∧ (rgb p = (0, 0, 0)%Z →
     lookup2 (smooth_pad data mask radius) i j = Some p).
Proof.
  intros Hp Hinvalid Hno.
  rewrite lookup2_smooth_pad, Hp, (invert_false _ _ _ Hinvalid); simpl.
  rewrite !smooth_value_unreachable by done.
  split; [done|]. destruct p as [r g b a]. unfold rgb; simpl.
  by intros [= -> -> ->].
Qed.

Lemma no_valid_within_all_false (mask : grid bool) radius i j :
  (∀ i' j', lookup2 mask i' j' ≠ Some true) →
  no_valid_within mask radius i j.
Proof. intros H i' j' _ _ _ _. apply H. Qed.

Lemma unreachable_pixel_zeroed_witness :
  rgb <$> lookup2 (smooth_pad [[Px 7 8 9 255]] [[false]] 1) 0 0
    = Some (0, 0, 0)%Z
  ∧ (rgb (Px 7 8 9 255) = (0, 0, 0)%Z →
     lookup2 (smooth_pad [[Px 7 8 9 255]] [[false]] 1) 0 0
       = Some (Px 7 8 9 255)).
Proof.
  apply (unreachable_pixel_zeroed [[Px 7 8 9 255]] [[false]] 1 0 0
           (Px 7 8 9 255)).
  - reflexivity.
  - reflexivity.
  - intros [|[|i']] [|[|j']] _ _ _ _; simpl; discriminate.
Defined.

(** C2, as the specification words it, fails: a 1x1 image whose only pixel
    is invalid and coloured (7, 8, 9) has weight sum 0 there, and the filter
    replaces the colour by (0, 0, 0) instead of leaving it. *)
Lemma unreachable_pixel_not_kept :
  let data := [[Px 7 8 9 255]] in
  let mask := [[false]] in
  lookup2 mask 0 0 = Some false
  ∧ at2 0%Q (generic_filter_sum (map2d float_of_bool mask) (2 * 1 + 1)) 0 0
    = 0%Q
  ∧ rgb <$> lookup2 data 0 0 = Some (7, 8, 9)%Z
  ∧ rgb <$> lookup2 (smooth_pad data mask 1) 0 0 ≠ rgb <$> lookup2 data 0 0.
Proof. vm_compute. repeat split; congruence. Qed.

(** C9. The 3x3 scenario: only the centre is valid, with colour
    (200, 50, 10); the other eight pixels are invalid with zeroed colour; the
    radius is 1.  Whatever the alpha values, [smooth_pad] followed by
    [flood_fill_pad] gives an image whose RGB is (200, 50, 10) everywhere. *)
Theorem scenario_3x3_uniform (a00 a01 a02 a10 a11 a12 a20 a21 a22 : Z) :
  let data :=
    [[Px 0 0 0 a00; Px 0 0 0 a01; Px 0 0 0 a02];
     [Px 0 0 0 a10; Px 200 50 10 a11; Px 0 0 0 a12];
     [Px 0 0 0 a20; Px 0 0 0 a21; Px 0 0 0 a22]] in
  let mask :=
    [[false; false; false]; [false; true; false]; [false; false; false]] in
  map2d rgb (flood_fill_pad (smooth_pad data mask 1) mask)
  = replicate 3 (replicate 3 (200, 50, 10)%Z).
Proof. intros data mask. subst data mask. vm_compute. reflexivity. Qed.

(** ** [auto_set_params] *)

(** Rounding never crosses an integer. *)
Lemma round_half_even_le (x : Q) (k : Z) :
  (x <= inject_Z k)%Q → (round_half_even x ≤ k)%Z.
Proof.
  destruct x as [n d]. unfold Qle, round_half_even; simpl. intros Hle.
  pose proof (Z.div_mod n (Z.pos d) ltac:(lia)) as Hn.
  pose proof (Z.mod_pos_bound n (Z.pos d) ltac:(lia)) as Hr.
  destruct (Z.compare_spec (2 * (n mod Z.pos d)) (Z.pos d));
    try destruct (Z.even _); nia.
Qed.

Lemma round_half_even_ge (x : Q) (k : Z) :
  (inject_Z k <= x)%Q → (k ≤ round_half_even x)%Z.
Proof.
  destruct x as [n d]. unfold Qle, round_half_even; simpl. intros Hle.
  pose proof (Z.div_mod n (Z.pos d) ltac:(lia)) as Hn.
  pose proof (Z.mod_pos_bound n (Z.pos d) ltac:(lia)) as Hr.
  destruct (Z.compare_spec (2 * (n mod Z.pos d)) (Z.pos d));
    try destruct (Z.even _); nia.
Qed.

Lemma round1_le (x : Q) (k : Z) :
  (x <= inject_Z k)%Q → (round1 x <= inject_Z k)%Q.
Proof.
  intros Hle. unfold round1.
  assert (round_half_even (x * 10) ≤ k * 10)%Z as H.
  { apply round_half_even_le. rewrite inject_Z_mult.
    apply Qmult_le_compat_r; [done|]. by unfold Qle. }
  unfold Qle; simpl. lia.
Qed.

Lemma round1_ge (x : Q) (k : Z) :
  (inject_Z k <= x)%Q → (inject_Z k <= round1 x)%Q.
Proof.
  intros Hle. unfold round1.
  assert (k * 10 ≤ round_half_even (x * 10))%Z as H.
  { apply round_half_even_ge. rewrite inject_Z_mult.
    apply Qmult_le_compat_r; [done|]. by unfold Qle. }
  unfold Qle; simpl. lia.
Qed.

(** Clamping before rounding, as the code does, or after it, as the
    specification writes it, gives the same value. *)
Lemma round1_clamp (x : Q) :
  (round1 (py_min 10 (py_max 1 x)) == clamp (round1 x) 1 10)%Q.
Proof.
  unfold py_min, py_max, clamp.
  destruct (Qle_bool x 1) eqn:H1; simpl.
  - apply Qle_bool_iff in H1.
    pose proof (round1_le x 1 H1) as Hr.
    rewrite (Q.max_r _ _ Hr).
    rewrite Q.min_l by by unfold Qle.
    by vm_compute.
  - assert (1 < x)%Q as H1'.
    { apply Qnot_le_lt. intros Hle%Qle_bool_iff. congruence. }
    pose proof (round1_ge x 1 (Qlt_le_weak _ _ H1')) as Hr.
    rewrite (Q.max_l _ _ Hr).
    destruct (Qle_bool 10 x) eqn:H10; simpl.
    + apply Qle_bool_iff in H10.
      pose proof (round1_ge x 10 H10) as Hr'.
      rewrite (Q.min_r _ _ Hr'). by vm_compute.
    + assert (x < 10)%Q as H10'.
      { apply Qnot_le_lt. intros Hle%Qle_bool_iff. congruence. }
      pose proof (round1_le x 10 (Qlt_le_weak _ _ H10')) as Hr'.
      by rewrite (Q.min_l _ _ Hr').
Qed.

(** [int] agrees with [floor] on the non-negative value it is applied to. *)
Lemma int_of_float_floor (m : nat) :
  int_of_float (inject_Z (Z.of_nat m) / 512 * 3)
  = Qfloor (inject_Z (Z.of_nat m) / 512 * 3).
Proof.
  unfold int_of_float, Qtruncate, Qfloor.
  destruct (inject_Z (Z.of_nat m) / 512 * 3)%Q as [n d] eqn:E.
  simpl. apply Z.quot_div_nonneg; [|lia].
  inversion E. lia.
Qed.

Example auto_set_params_1024 : auto_set_params (1024, 768) = (6%Z, 3.0%Q).
Proof. reflexivity. Qed.

(** 768 / 1024 * 3 = 2.25 lies halfway between two tenths. *)
Example auto_set_params_768 : auto_set_params (768, 512) = (4%Z, 2.2%Q).
Proof. reflexivity. Qed.

Example auto_set_params_small : auto_set_params (64, 64) = (2%Z, 1.0%Q).
Proof. reflexivity. Qed.

(** C7. For every image size, with [maxDim] its longer side, the auto-tuner
    returns the radius [max(2, floor(maxDim / 512 * 3))] and the sigma
    [clamp(round(maxDim / 1024 * 3, 1 decimal), 1.0, 10.0)] of the
    specification, and equal sizes give identical results. *)
Theorem auto_set_params_spec (w h : nat) :
  (auto_set_params (w, h)).1 = spec_radius (Nat.max w h)
  ∧ ((auto_set_params (w, h)).2 == spec_sigma (Nat.max w h))%Q
  ∧ ∀ w' h', (w', h') = (w, h) →
             auto_set_params (w', h') = auto_set_params (w, h).
Proof.
  split; [|split].
  - unfold auto_set_params, spec_radius; simpl.
    by rewrite int_of_float_floor.
  - unfold auto_set_params, spec_sigma; simpl.
    apply round1_clamp.
  - by intros w' h' [= -> ->].
Qed.

(** ** [pad_image] *)

Section pad_image_facts.
Variable gaussian_filter : grid Q → Q → grid Q.
Implicit Types (data : image) (radius : option nat) (blur_sigma : option Q).

(** The parameters [pad_image] settles on before it looks at any pixel. *)
Lemma pad_image_external data radius blur_sigma mask_img auto_params :
  ∃ r : nat,
    pad_image gaussian_filter data radius blur_sigma (Some mask_img)
              auto_params
    = match load_mask_image mask_img (size data) with
      | inl e => (SysExit1 e, data)
      | inr mask =>
          (Saved (make_opaque (flood_fill_pad (smooth_pad data mask r) mask)),
           data)
      end.
Proof.
  unfold pad_image.
  destruct (auto_params || _); [destruct (auto_set_params _)|]; eauto.
Qed.

Lemma all_opaque_forallb data :
  (∀ i j p, lookup2 data i j = Some p → chA p = 255%Z) →
  forallb (forallb (λ a, a =? 255)%Z) (map2d chA data) = true.
Proof.
  intros Hall. apply forallb_forall. intros row Hrow.
  apply list_elem_of_In, list_elem_of_lookup in Hrow as [i Hi].
  apply forallb_forall. intros a Ha.
  apply list_elem_of_In, list_elem_of_lookup in Ha as [j Hj].
  assert (lookup2 (map2d chA data) i j = Some a) as Hij.
  { unfold lookup2. by rewrite Hi. }
  rewrite lookup2_map2d in Hij.
  destruct (lookup2 data i j) as [p|] eqn:Hp; simplify_eq/=.
  apply Z.eqb_eq. by eapply Hall.
Qed.

(** C6, as the code has it. In the alpha-driven mode (no mask given), when
    every pixel has alpha 255 the run takes the early return, a success and
    not an error: no fill or fade stage runs, whatever the parameters and the
    blur, the array is left as it was loaded, and no image is returned or
    saved. *)
Theorem no_transparency_no_op data radius blur_sigma auto_params :
  (∀ i j p, lookup2 data i j = Some p → chA p = 255%Z) →
  pad_image gaussian_filter data radius blur_sigma None auto_params
  = (NothingToPad, data)
  ∧ (∀ out,
       (pad_image gaussian_filter data radius blur_sigma None auto_params).1
       ≠ Saved out)
  ∧ (∀ e,
       (pad_image gaussian_filter data radius blur_sigma None auto_params).1
       ≠ SysExit1 e).
Proof.
  intros Hall.
  assert (pad_image gaussian_filter data radius blur_sigma None auto_params
          = (NothingToPad, data)) as ->.
  { unfold pad_image. rewrite (all_opaque_forallb _ Hall).
    destruct (auto_params || _); [destruct (auto_set_params _)|]; done. }
  done.
Qed.

(** C8. With a mask whose size differs from the image's, the run ends in
    [sys.exit(1)] on the size-mismatch error, and the image array is as it
    was loaded: no stage has run. *)
Theorem mask_size_mismatch_aborts data radius blur_sigma mask_img
    auto_params :
  size mask_img ≠ size data →
  pad_image gaussian_filter data radius blur_sigma (Some mask_img)
            auto_params
  = (SysExit1 (MaskSizeMismatch (size mask_img) (size data)), data).
Proof.
  intros Hsize.
  destruct (pad_image_external data radius blur_sigma mask_img auto_params)
    as [r ->].
  unfold load_mask_image. by rewrite decide_True.
Qed.
End pad_image_facts.

Lemma no_transparency_no_op_witness :
  pad_image (λ field _, field) [[Px 1 2 3 255; Px 4 5 6 255]] None None None
            false
  = (NothingToPad, [[Px 1 2 3 255; Px 4 5 6 255]])
  ∧ (∀ out,
       (pad_image (λ field _, field) [[Px 1 2 3 255; Px 4 5 6 255]] None None
                  None false).1 ≠ Saved out)
  ∧ (∀ e,
       (pad_image (λ field _, field) [[Px 1 2 3 255; Px 4 5 6 255]] None None
                  None false).1 ≠ SysExit1 e).
Proof.
  apply no_transparency_no_op.
  intros [|[|i]] [|[|[|j]]] p; simpl; intros [= <-]; reflexivity.
Defined.

(** C6, as the specification words it, fails: on a 1x2 image of alpha 255
    the run ends in the early return, which carries no image; the input
    image is not handed on for saving. *)
Lemma no_transparency_returns_no_image :
  (pad_image (λ field _, field) [[Px 1 2 3 255; Px 4 5 6 255]] None None None
             false).1 = NothingToPad
  ∧ (pad_image (λ field _, field) [[Px 1 2 3 255; Px 4 5 6 255]] None None
               None false).1 ≠ Saved [[Px 1 2 3 255; Px 4 5 6 255]].
Proof. split; [reflexivity|vm_compute; discriminate]. Qed.

Lemma mask_size_mismatch_aborts_witness :
  pad_image (λ field _, field) [[Px 1 2 3 0; Px 4 5 6 255]] None None
            (Some [[200%Z]]) false
  = (SysExit1 (MaskSizeMismatch (1, 1) (2, 1)),
     [[Px 1 2 3 0; Px 4 5 6 255]]).
Proof.
  apply (mask_size_mismatch_aborts (λ field _, field)
           [[Px 1 2 3 0; Px 4 5 6 255]] None None [[200%Z]] false).
  vm_compute. discriminate.
Defined.

(** ** The nearest-valid-pixel fill *)

Lemma has_shape_lookup2 {A} h w (g : grid A) i j :
  has_shape h w g → is_Some (lookup2 g i j) ↔ i < h ∧ j < w.
Proof.
  intros [<- Hrows]. unfold lookup2. split.
  - destruct (g !! i) as [row|] eqn:Hrow; [|by intros [? ?]].
    intros Hj%lookup_lt_is_Some.
    split; [by eapply lookup_lt_Some|].
    rewrite Forall_forall in Hrows.
    by rewrite <- (Hrows row) by by eapply list_elem_of_lookup_2.
  - intros [Hi Hj].
    destruct (lookup_lt_is_Some_2 g i Hi) as [row Hrow]. rewrite Hrow.
    apply lookup_lt_is_Some.
    rewrite Forall_forall in Hrows.
    by rewrite (Hrows row) by by eapply list_elem_of_lookup_2.
Qed.

Lemma has_shape_imap2d {A B} h w (f : nat → nat → A → B) (g : grid A) :
  has_shape h w g → has_shape h w (imap2d f g).
Proof.
  intros [Hlen Hrows]. unfold imap2d. split; [by rewrite length_imap|].
  rewrite Forall_forall in Hrows. apply Forall_forall.
  intros row' (i & row & -> & Hrow)%elem_of_lookup_imap.
  rewrite length_imap. by eapply Hrows, list_elem_of_lookup_2.
Qed.

(** Shape preservation of the averaging stage. *)
Lemma has_shape_smooth_pad h w (data : image) (mask : grid bool) radius :
  has_shape h w data → has_shape h w (smooth_pad data mask radius).
Proof.
  intros Hdata. unfold smooth_pad, assign_where; simpl.
  by do 3 apply has_shape_imap2d.
Qed.

Lemma elem_of_background (input : grid bool) (q : nat * nat) :
  q ∈ background input ↔ lookup2 input q.1 q.2 = Some false.
Proof.
  unfold background. rewrite list_elem_of_In, in_concat. split.
  - intros (l & Hl & Hq). apply list_elem_of_In in Hl, Hq.
    apply elem_of_lookup_imap in Hl as (i & row & -> & Hrow).
    apply list_elem_of_omap in Hq as (x & Hx & Hid).
    apply elem_of_lookup_imap in Hx as (j & b & -> & Hb).
    unfold lookup2. destruct b; simplify_eq/=. by rewrite Hrow.
  - destruct q as [i j]; simpl. unfold lookup2.
    destruct (input !! i) as [row|] eqn:Hrow; [|done]. intros Hb.
    exists (omap id (imap (λ j (b : bool),
                             if b then None else Some (i, j)) row)).
    split; apply list_elem_of_In.
    + by apply (elem_of_lookup_imap_2
                  (λ i row, omap id (imap (λ j (b : bool),
                                  if b then None else Some (i, j)) row))
                  input row i).
    + apply list_elem_of_omap. exists (Some (i, j)). split; [|done].
      by apply (elem_of_lookup_imap_2
                  (λ j (b : bool), if b then None else Some (i, j)) _ false j).
Qed.

Lemma foldl_closer_elem p c rest : foldl (closer p) c rest ∈ c :: rest.
Proof.
  revert c. induction rest as [|x rest IH]; intros c; simpl.
  { apply elem_of_cons. by left. }
  specialize (IH (closer p c x)). unfold closer in *.
  apply elem_of_cons in IH as [IH|IH]; [rewrite IH|].
  - destruct (sqdist p x <? sqdist p c)%Z; rewrite !elem_of_cons; auto.
  - rewrite !elem_of_cons; auto.
Qed.

Lemma closer_le p c x :
  (sqdist p (closer p c x) ≤ sqdist p c)%Z
  ∧ (sqdist p (closer p c x) ≤ sqdist p x)%Z.
Proof. unfold closer. destruct (Z.ltb_spec (sqdist p x) (sqdist p c)); lia. Qed.

Lemma foldl_closer_le p c rest :
  (sqdist p (foldl (closer p) c rest) ≤ sqdist p c)%Z.
Proof.
  revert c. induction rest as [|x rest IH]; intros c; simpl; [lia|].
  etrans; [apply IH|apply closer_le].
Qed.

Lemma foldl_closer_min p c rest q :
  q ∈ c :: rest → (sqdist p (foldl (closer p) c rest) ≤ sqdist p q)%Z.
Proof.
  intros [->|Hq]%elem_of_cons; [apply foldl_closer_le|].
  revert c. induction rest as [|x rest IH]; intros c; simpl.
  { by apply elem_of_nil in Hq. }
  apply elem_of_cons in Hq as [->|Hq]; [|by apply IH].
  etrans; [apply foldl_closer_le|apply closer_le].
Qed.

Lemma nearest_spec p cands :
  cands ≠ [] →
  ∃ q, nearest p cands = Some q ∧ q ∈ cands
       ∧ ∀ q', q' ∈ cands → (sqdist p q ≤ sqdist p q')%Z.
Proof.
  destruct cands as [|c rest]; [done|]. intros _. eexists. split; [done|].
  split; [apply foldl_closer_elem|]. intros q'. apply foldl_closer_min.
Qed.

Lemma index_pixel_lookup2 (data : image) a b x :
  lookup2 data a b = Some x → index_pixel data (Z.of_nat a, Z.of_nat b) = x.
Proof.
  unfold lookup2, index_pixel, wrap_index; simpl.
  destruct (Z.ltb_spec (Z.of_nat a) 0); [lia|].
  destruct (Z.ltb_spec (Z.of_nat b) 0); [lia|].
  rewrite !Nat2Z.id.
  destruct (data !! a) as [row|]; simpl; [|done]. by intros ->.
Qed.

Lemma index_pixel_cases (data : image) ij :
  index_pixel data ij = black
  ∨ ∃ a b, lookup2 data a b = Some (index_pixel data ij).
Proof.
  unfold index_pixel.
  destruct (data !! wrap_index ij.1 (length data)) as [row|] eqn:Hrow; simpl;
    [|by left].
  destruct (row !! wrap_index ij.2 (length row)) as [x|] eqn:Hx; simpl;
    [|by left].
  right. eexists _, _. unfold lookup2. by rewrite Hrow.
Qed.

(** The source of an invalid pixel is a nearest valid pixel. *)
Lemma flood_source_nearest (data : image) (mask : grid bool) h w i j :
  has_shape h w data → has_shape h w mask →
  lookup2 mask i j = Some false →
  (∃ a b, lookup2 mask a b = Some true) →
  ∃ a b q, lookup2 mask a b = Some true ∧ lookup2 data a b = Some q
           ∧ flood_source data mask i j = q
           ∧ ∀ a' b', lookup2 mask a' b' = Some true →
                      (sqdist (i, j) (a, b) ≤ sqdist (i, j) (a', b'))%Z.
Proof.
  intros Hdata Hmask Hij (a0 & b0 & Hvalid).
  assert (∀ q, q ∈ background (invert mask)
               ↔ lookup2 mask q.1 q.2 = Some true) as Hbg.
  { intros q. rewrite elem_of_background. unfold invert.
    rewrite lookup2_map2d.
    destruct (lookup2 mask q.1 q.2) as [[]|]; simpl; split; done. }
  destruct (nearest_spec (i, j) (background (invert mask)))
    as ([a b] & Hnear & Hin & Hmin).
  { intros Hnil. pose proof (proj2 (Hbg (a0, b0)) Hvalid) as H0.
    rewrite Hnil in H0. by apply elem_of_nil in H0. }
  apply Hbg in Hin; simpl in Hin.
  destruct (proj2 (has_shape_lookup2 h w data a b Hdata)) as [q Hq].
  { apply (has_shape_lookup2 h w mask a b Hmask). by rewrite Hin. }
  exists a, b, q. split; [done|]. split; [done|]. split.
  - unfold flood_source, distance_transform_edt_indices, at2.
    rewrite lookup2_imap2d. unfold invert at 2.
    rewrite lookup2_map2d, Hij; simpl. rewrite Hnear; simpl.
    by apply index_pixel_lookup2.
  - intros a' b' Hv. apply (Hmin (a', b')), Hbg. done.
Qed.

Lemma smooth_pad_all_invalid (data : image) (mask : grid bool) radius h w
    i j p :
  has_shape h w data → has_shape h w mask →
  (∀ a b, lookup2 mask a b ≠ Some true) →
  lookup2 (smooth_pad data mask radius) i j = Some p → rgb p = (0, 0, 0)%Z.
Proof.
  intros Hdata Hmask Hnone. rewrite lookup2_smooth_pad.
  destruct (lookup2 data i j) as [p0|] eqn:Hp0; [|done].
  destruct (proj2 (has_shape_lookup2 h w mask i j Hmask)) as [b Hb].
  { apply (has_shape_lookup2 h w data i j Hdata). by rewrite Hp0. }
  destruct b; [by destruct (Hnone i j)|].
  rewrite (invert_false _ _ _ Hb); simpl.
  rewrite !smooth_value_unreachable by by apply no_valid_within_all_false.
  by intros [= <-].
Qed.

Lemma fill_all_invalid (data : image) (mask : grid bool) radius h w i j p :
  has_shape h w data → has_shape h w mask →
  (∀ a b, lookup2 mask a b ≠ Some true) →
  lookup2 (flood_fill_pad (smooth_pad data mask radius) mask) i j = Some p →
  rgb p = (0, 0, 0)%Z.
Proof.
  intros Hdata Hmask Hnone. rewrite lookup2_flood_fill_pad.
  destruct (lookup2 (smooth_pad data mask radius) i j) as [p1|] eqn:Hp1;
    [|done].
  simpl. destruct (at2 false (invert mask) i j).
  - intros [= <-]. unfold rgb; simpl.
    destruct (index_pixel_cases (smooth_pad data mask radius)
                (at2 (0, 0)%Z (distance_transform_edt_indices (invert mask))
                     i j)) as [Hblack|(a & b & Hsrc)].
    + unfold flood_source. by rewrite Hblack.
    + by apply (smooth_pad_all_invalid data mask radius h w a b).
  - intros [= <-].
    by apply (smooth_pad_all_invalid data mask radius h w i j).
Qed.

(** C5, as the code has it. On a well-formed image and mask: if some pixel
    is valid, every pixel after [smooth_pad] and [flood_fill_pad] carries the
    input RGB of a valid pixel, and of a nearest one; if no pixel is valid,
    no error is raised: the two stages return an image whose RGB is zero
    everywhere, and a run with such an external mask saves that image with
    alpha 255. *)
Theorem full_coverage_unless_no_valid_pixel (data : image)
    (mask : grid bool) (radius h w : nat) :
  has_shape h w data → has_shape h w mask →
  ((∃ a b, lookup2 mask a b = Some true) →
   ∀ i j p,
     lookup2 (flood_fill_pad (smooth_pad data mask radius) mask) i j = Some p →
     ∃ a b q, lookup2 mask a b = Some true ∧ lookup2 data a b = Some q
              ∧ rgb p = rgb q
              ∧ ∀ a' b', lookup2 mask a' b' = Some true →
                         (sqdist (i, j) (a, b) ≤ sqdist (i, j) (a', b'))%Z)
  ∧ ((∀ a b, lookup2 mask a b ≠ Some true) →
     (∀ i j p,
        lookup2 (flood_fill_pad (smooth_pad data mask radius) mask) i j
          = Some p →
        rgb p = (0, 0, 0)%Z)
     ∧ ∀ gaussian_filter mask_img r blur_sigma auto_params,
         load_mask_image mask_img (size data) = inr mask →
         ∃ out,
           pad_image gaussian_filter data r blur_sigma (Some mask_img)
                     auto_params = (Saved out, data)
           ∧ ∀ i j p, lookup2 out i j = Some p → p = Px 0 0 0 255).
Proof.
  intros Hdata Hmask. split.
  - intros Hvalid i j p. rewrite lookup2_flood_fill_pad.
    destruct (lookup2 (smooth_pad data mask radius) i j) as [p1|] eqn:Hp1;
      [|done].
    assert (is_Some (lookup2 data i j)) as [p0 Hp0].
    { rewrite lookup2_smooth_pad in Hp1.
      by destruct (lookup2 data i j); [eexists|]. }
    destruct (proj2 (has_shape_lookup2 h w mask i j Hmask)) as [b Hb].
    { apply (has_shape_lookup2 h w data i j Hdata). by rewrite Hp0. }
    destruct b.
    + rewrite (invert_true _ _ _ Hb); simpl. intros [= <-].
      pose proof (smooth_pad_valid data mask radius i j Hb) as Hs.
      rewrite Hp1, Hp0 in Hs. apply (inj Some) in Hs as ->.
      exists i, j, p0. split; [done|]. split; [done|]. split; [done|].
      intros a' b' _. unfold sqdist; simpl. nia.
    + rewrite (invert_false _ _ _ Hb); simpl. intros [= <-].
      pose proof (has_shape_smooth_pad h w data mask radius Hdata)
        as Hsmooth.
      destruct (flood_source_nearest (smooth_pad data mask radius) mask h w
                  i j Hsmooth Hmask Hb Hvalid)
        as (a & b & q & Hab & Hq & Hsrc & Hmin).
      pose proof (smooth_pad_valid data mask radius a b Hab) as Hs.
      rewrite Hq in Hs.
      exists a, b, q. split; [done|]. split; [done|]. split; [|done].
      by rewrite <- Hsrc.
  - intros Hnone. split.
    + intros i j p. by apply (fill_all_invalid data mask radius h w).
    + intros gaussian_filter mask_img r blur_sigma auto_params Hload.
      destruct (pad_image_external gaussian_filter data r blur_sigma
                  mask_img auto_params) as [r' ->].
      rewrite Hload. eexists. split; [done|].
      intros i j p. unfold make_opaque. rewrite lookup2_map2d.
      destruct (lookup2 _ i j) as [p'|] eqn:Hp'; [|done].
      simpl. intros [= <-].
      apply (fill_all_invalid data mask r' h w i j p' Hdata Hmask Hnone)
        in Hp'.
      unfold rgb in Hp'. by injection Hp' as -> -> ->.
Qed.

Lemma full_coverage_unless_no_valid_pixel_witness :
  (∃ a b q, lookup2 [[false; true]] a b = Some true
            ∧ lookup2 [[Px 5 6 7 0; Px 1 2 3 255]] a b = Some q
            ∧ rgb (Px 1 2 3 0) = rgb q
            ∧ ∀ a' b', lookup2 [[false; true]] a' b' = Some true →
                       (sqdist (0%nat, 0%nat) (a, b)
                        ≤ sqdist (0%nat, 0%nat) (a', b'))%Z)
  ∧ ∃ out,
      pad_image (λ field _, field) [[Px 5 6 7 0]] None None (Some [[0%Z]])
                false = (Saved out, [[Px 5 6 7 0]])
      ∧ ∀ i j p, lookup2 out i j = Some p → p = Px 0 0 0 255.
Proof.
  split.
  - apply (proj1 (full_coverage_unless_no_valid_pixel
                    [[Px 5 6 7 0; Px 1 2 3 255]] [[false; true]] 1 1 2
                    ltac:(split; [reflexivity|repeat constructor])
                    ltac:(split; [reflexivity|repeat constructor]))
                 ltac:(by exists 0, 1) 0 0 (Px 1 2 3 0)).
    reflexivity.
  - apply (proj2 (proj2 (full_coverage_unless_no_valid_pixel
                    [[Px 5 6 7 0]] [[false]] 1 1 1
                    ltac:(split; [reflexivity|repeat constructor])
                    ltac:(split; [reflexivity|repeat constructor]))
                 ltac:(by intros [|[|?]] [|[|?]]))
             (λ field _, field) [[0%Z]] None None false).
    reflexivity.
Defined.

(** C5, as the specification words it, fails: a 1x1 image whose external
    mask marks no pixel valid is not rejected; the run saves a black,
    opaque pixel. *)
Lemma no_valid_pixel_saves_black :
  load_mask_image [[0%Z]] (size [[Px 5 6 7 0]]) = inr [[false]]
  ∧ pad_image (λ field _, field) [[Px 5 6 7 0]] None None (Some [[0%Z]])
              false
    = (Saved [[Px 0 0 0 255]], [[Px 5 6 7 0]]).
Proof. split; vm_compute; reflexivity. Qed.

(** ** The alpha fade *)

Lemma elem_of_concat_lookup2 {A} (g : grid A) (x : A) :
  x ∈ concat g ↔ ∃ i j, lookup2 g i j = Some x.
Proof.
  rewrite list_elem_of_In, in_concat. unfold lookup2. split.
  - intros (row & Hrow & Hx). apply list_elem_of_In in Hrow, Hx.
    apply list_elem_of_lookup in Hrow as [i Hi], Hx as [j Hj].
    exists i, j. by rewrite Hi.
  - intros (i & j & Hij).
    destruct (g !! i) as [row|] eqn:Hrow; [|done].
    exists row. split; apply list_elem_of_In; by eapply list_elem_of_lookup_2.
Qed.

Section constant_field.
Variables (distance : grid Q) (v : Q).
Hypothesis constant : ∀ i j d, lookup2 distance i j = Some d → (d == v)%Q.

Lemma foldl_Qmin_constant (x : Q) (l : list Q) :
  (x == v)%Q → Forall (λ y, y == v)%Q l → (foldl Qmin x l == v)%Q.
Proof.
  intros Hx Hl. revert x Hx.
  induction Hl as [|y l Hy _ IH]; intros x Hx; simpl; [done|].
  apply IH. rewrite Q.min_l; [done|]. rewrite Hx, Hy. apply Qle_refl.
Qed.

Lemma foldl_Qmax_constant (x : Q) (l : list Q) :
  (x == v)%Q → Forall (λ y, y == v)%Q l → (foldl Qmax x l == v)%Q.
Proof.
  intros Hx Hl. revert x Hx.
  induction Hl as [|y l Hy _ IH]; intros x Hx; simpl; [done|].
  apply IH. rewrite Q.max_l; [done|]. rewrite Hx, Hy. apply Qle_refl.
Qed.

Lemma concat_constant : Forall (λ y, y == v)%Q (concat distance).
Proof.
  apply Forall_forall. intros y (i & j & Hy)%elem_of_concat_lookup2.
  by eapply constant.
Qed.

Lemma grid_min_max_constant i j d :
  lookup2 distance i j = Some d →
  (grid_min distance == v)%Q ∧ (grid_max distance == v)%Q.
Proof.
  intros Hd. pose proof concat_constant as Hall.
  unfold grid_min, grid_max.
  destruct (concat distance) as [|x rest] eqn:Hc.
  { assert (d ∈ concat distance) as Hin
      by (apply elem_of_concat_lookup2; eauto).
    rewrite Hc in Hin. by apply elem_of_nil in Hin. }
  apply Forall_cons in Hall as [Hx Hrest].
  split; [by apply foldl_Qmin_constant|by apply foldl_Qmax_constant].
Qed.

Lemma normalize_constant i j d :
  lookup2 distance i j = Some d →
  lookup2 (normalize distance) i j = Some NaN.
Proof.
  intros Hd. destruct (grid_min_max_constant i j d Hd) as [Hmin Hmax].
  unfold normalize. rewrite lookup2_map2d, Hd; simpl.
  unfold fdiv.
  assert (Qeq_bool (grid_max distance - grid_min distance) 0 = true) as ->.
  { apply Qeq_bool_iff. rewrite Hmin, Hmax. ring. }
  assert (Qeq_bool (d - grid_min distance) 0 = true) as ->.
  { apply Qeq_bool_iff. rewrite Hmin, (constant i j d Hd). ring. }
  done.
Qed.

Lemma faded_alpha_constant (alpha : grid Z) i j a d :
  lookup2 alpha i j = Some a →
  lookup2 distance i j = Some d →
  lookup2 (faded_alpha alpha distance) i j = Some 0%Z.
Proof.
  intros Ha Hd.
  unfold faded_alpha. rewrite lookup2_imap2d, Ha; simpl.
  by rewrite (at2_Some _ _ _ _ _ (normalize_constant i j d Hd)).
Qed.

(** C4, as the code has it: the division is not guarded.  Over a constant
    field every quotient is 0/0, the normalized field is NaN everywhere
    instead of zero, and the cast turns every faded alpha into 0, whatever
    the original alpha was. *)
Theorem constant_field_not_guarded (alpha : grid Z) (i j : nat) (a : Z)
    (d : Q) :
  lookup2 alpha i j = Some a →
  lookup2 distance i j = Some d →
  lookup2 (normalize distance) i j = Some NaN
  ∧ lookup2 (faded_alpha alpha distance) i j = Some 0%Z.
Proof.
  intros Ha Hd. split.
  - by eapply normalize_constant.
  - by eapply faded_alpha_constant.
Qed.
End constant_field.

Lemma constant_field_not_guarded_witness :
  lookup2 (normalize [[0%Q; 0%Q]]) 0 1 = Some NaN
  ∧ lookup2 (faded_alpha [[128; 7]]%Z [[0%Q; 0%Q]]) 0 1 = Some 0%Z.
Proof.
  apply (constant_field_not_guarded [[0%Q; 0%Q]] 0%Q) with (a := 7%Z) (d := 0%Q).
  - intros [|[|i]] [|[|[|j]]] d; simpl; intros [= <-]; reflexivity.
  - reflexivity.
  - reflexivity.
Defined.

Lemma has_shape_map2d {A B} h w (f : A → B) (g : grid A) :
  has_shape h w g → has_shape h w (map2d f g).
Proof.
  intros [Hlen Hrows]. unfold map2d. split; [by rewrite length_fmap|].
  apply Forall_fmap. eapply Forall_impl; [done|].
  intros row Hrow; simpl. by rewrite length_fmap.
Qed.

Lemma has_shape_replicate {A} h w (x : A) :
  has_shape h w (replicate h (replicate w x)).
Proof.
  split; [apply length_replicate|].
  apply Forall_forall. intros row ->%elem_of_replicate_inv.
  apply length_replicate.
Qed.

Lemma map2d_constant {A B} h w (f : A → B) (c : B) (g : grid A) :
  has_shape h w g → Forall (Forall (λ x, f x = c)) g →
  map2d f g = replicate h (replicate w c).
Proof.
  intros [<- Hrows] Hall. unfold map2d.
  induction Hall as [|row g Hrow _ IH]; [done|]. simpl.
  apply Forall_cons in Hrows as [<- Hrows]. f_equal; [|by apply IH].
  clear IH Hrows. induction Hrow as [|x row Hx _ IH]; [done|].
  simpl. f_equal; [done|exact IH].
Qed.

Lemma lookup2_Forall {A} (P : A → Prop) (g : grid A) i j x :
  Forall (Forall P) g → lookup2 g i j = Some x → P x.
Proof.
  unfold lookup2. intros Hall Hx.
  destruct (g !! i) as [row|] eqn:Hrow; [|done].
  rewrite Forall_forall in Hall.
  specialize (Hall row ltac:(by eapply list_elem_of_lookup_2)).
  rewrite Forall_forall in Hall. apply Hall.
  by eapply list_elem_of_lookup_2.
Qed.

Lemma Qtruncate_bounds (q : Q) (a b : Z) :
  (0 ≤ a)%Z → (inject_Z a <= q)%Q → (q <= inject_Z b)%Q →
  (a ≤ Qtruncate q ≤ b)%Z.
Proof.
  destruct q as [n d]. unfold Qle, Qtruncate; simpl. intros Ha Hlo Hhi.
  rewrite Z.quot_div_nonneg by lia. split.
  - apply Z.div_le_lower_bound; lia.
  - apply Z.div_le_upper_bound; lia.
Qed.

(** Away from the constant field the fade keeps its promise: the result of
    [np.maximum] with the original alpha, once cast, is at least that
    alpha. *)
Lemma faded_alpha_monotone_unless_constant (alpha : grid Z)
    (distance : grid Q) (i j : nat) (a : Z) (d : Q) :
  lookup2 alpha i j = Some a → (0 ≤ a ≤ 255)%Z →
  lookup2 distance i j = Some d →
  ¬ (grid_max distance == grid_min distance)%Q →
  ∃ a', lookup2 (faded_alpha alpha distance) i j = Some a'
        ∧ (a ≤ a' ≤ 255)%Z.
Proof.
  intros Ha Hrange Hd Hne.
  unfold faded_alpha. rewrite lookup2_imap2d, Ha; simpl.
  eexists. split; [done|].
  erewrite at2_Some; last first.
  { unfold normalize. by rewrite lookup2_map2d, Hd. }
  unfold fdiv.
  destruct (Qeq_bool (grid_max distance - grid_min distance) 0) eqn:Hz.
  { exfalso. apply Hne. apply Qeq_bool_iff in Hz.
    rewrite <- (Qplus_0_l (grid_min distance)), <- Hz. ring. }
  simpl. unfold uint8_of_float.
  set (q := ((d - grid_min distance)
             / (grid_max distance - grid_min distance))%Q).
  assert (0 <= Qmin (Qmax q 0) 1 <= 1)%Q as [Hc0 Hc1].
  { split; [|apply Q.le_min_r].
    apply Q.min_glb; [apply Q.le_max_r|done]. }
  assert (inject_Z a <= Qmax (inject_Z a) (Qmin (Qmax q 0) 1 * 255)
          <= inject_Z 255)%Q as [Hlo Hhi].
  { split; [apply Q.le_max_l|].
    apply Q.max_lub; [rewrite <- Zle_Qle; lia|].
    change (inject_Z 255) with (1 * 255)%Q.
    by apply Qmult_le_compat_r. }
  pose proof (Qtruncate_bounds _ a 255 ltac:(lia) Hlo Hhi) as Hb.
  rewrite Z.mod_small by lia. done.
Qed.

Section fully_transparent.
Variable gaussian_filter : grid Q → Q → grid Q.
Variables (data : image) (h w : nat).
Hypothesis well_formed : has_shape h w data.
Hypothesis non_empty : 0 < h ∧ 0 < w.
Hypothesis transparent : Forall (Forall (λ p, chA p < 255)%Z) data.
(** Blurring the all-zero array gives the all-zero array. *)
Hypothesis blur_zero : ∀ sigma,
  gaussian_filter (replicate h (replicate w 0%Q)) sigma
  = replicate h (replicate w 0%Q).

Lemma not_all_opaque :
  forallb (forallb (λ a, a =? 255)%Z) (map2d chA data) = false.
Proof.
  apply not_true_is_false. intros Hall.
  destruct (proj2 (has_shape_lookup2 h w data 0 0 well_formed) non_empty)
    as [p Hp].
  pose proof (lookup2_Forall _ _ _ _ _ transparent Hp) as Hlt.
  assert (lookup2 (map2d chA data) 0 0 = Some (chA p)) as Ha
    by by rewrite lookup2_map2d, Hp.
  unfold lookup2 in Ha.
  destruct (map2d chA data !! 0) as [row|] eqn:Hrow; [|done].
  rewrite forallb_forall in Hall.
  specialize (Hall row ltac:(by eapply list_elem_of_In,
                                       list_elem_of_lookup_2)).
  rewrite forallb_forall in Hall.
  specialize (Hall (chA p) ltac:(by eapply list_elem_of_In,
                                           list_elem_of_lookup_2)).
  apply Z.eqb_eq in Hall. simpl in Hlt. lia.
Qed.

Lemma opaque_indicator_zero :
  opaque_indicator (map2d chA (zero_transparent data))
  = replicate h (replicate w 0%Q).
Proof.
  unfold opaque_indicator.
  apply map2d_constant.
  { by do 2 apply has_shape_map2d. }
  unfold map2d, zero_transparent, map2d.
  do 2 apply Forall_fmap. eapply Forall_impl; [apply transparent|].
  intros row Hrow; simpl.
  do 2 apply Forall_fmap. eapply Forall_impl; [apply Hrow|].
  intros p Hp; simpl.
  assert ((chA p <? 255)%Z = true) as Hlt by by apply Z.ltb_lt.
  rewrite Hlt; simpl. by rewrite Hlt.
Qed.

(** C3, as the code has it, on an image without any opaque pixel: the
    blurred field is constant, the fade divides 0 by 0, and every alpha that
    is saved is 0, below every original alpha that was not 0. *)
Theorem fully_transparent_alpha_lost (radius : option nat)
    (blur_sigma : option Q) (auto_params : bool) :
  ∃ out,
    pad_image gaussian_filter data radius blur_sigma None auto_params
    = (Saved out, zero_transparent data)
    ∧ ∀ i j p, lookup2 out i j = Some p → chA p = 0%Z.
Proof.
  unfold pad_image. rewrite not_all_opaque, opaque_indicator_zero.
  assert (∀ sigma padded_data,
    ∀ i j p,
      lookup2 (assign_alpha padded_data
                 (faded_alpha (map2d chA (zero_transparent data))
                    (gaussian_filter (replicate h (replicate w 0%Q)) sigma)))
              i j = Some p → chA p = 0%Z) as Hfade.
  { intros sigma padded_data i j p. rewrite blur_zero.
    unfold assign_alpha. rewrite lookup2_imap2d.
    destruct (lookup2 padded_data i j) as [p'|]; [|done].
    simpl. intros [= <-]; simpl.
    destruct (lookup2 (map2d chA (zero_transparent data)) i j)
      as [a|] eqn:Ha.
    - destruct (proj2 (has_shape_lookup2 h w _ i j
                         (has_shape_replicate h w 0%Q))) as [d Hd].
      { eapply has_shape_lookup2; [|by rewrite Ha].
        by do 2 apply has_shape_map2d. }
      apply at2_Some.
      eapply (faded_alpha_constant _ 0%Q); [|done..].
      intros i' j' d'. unfold lookup2.
      destruct (replicate h _ !! i') as [row|] eqn:Hrow; [|done].
      apply lookup_replicate in Hrow as [-> _].
      by intros [-> _]%lookup_replicate.
    - apply at2_None. unfold faded_alpha.
      by rewrite lookup2_imap2d, Ha. }
  destruct (auto_params || _); [destruct (auto_set_params _)|];
    eexists; (split; [done|]); apply Hfade.
Qed.
End fully_transparent.

Lemma fully_transparent_alpha_lost_witness :
  ∃ out,
    pad_image (λ field _, field) [[Px 10 20 30 128]] None None None false
    = (Saved out, zero_transparent [[Px 10 20 30 128]])
    ∧ ∀ i j p, lookup2 out i j = Some p → chA p = 0%Z.
Proof.
  apply (fully_transparent_alpha_lost (λ field _, field)
           [[Px 10 20 30 128]] 1 1).
  - split; [reflexivity|repeat constructor].
  - lia.
  - repeat constructor.
  - reflexivity.
Defined.

(** * Further properties of the two fill stages *)

Lemma has_shape_flood_fill_pad h w (data : image) (mask : grid bool) :
  has_shape h w data → has_shape h w (flood_fill_pad data mask).
Proof.
  intros Hdata. unfold flood_fill_pad.
  destruct (negb _); [done|]. simpl. unfold assign_indexed.
  by do 3 apply has_shape_imap2d.
Qed.

Lemma length_flood_fill_pad (data : image) (mask : grid bool) :
  length (flood_fill_pad data mask) = length data.
Proof.
  unfold flood_fill_pad. destruct (negb _); [done|]. simpl.
  unfold assign_indexed, imap2d. by rewrite !length_imap.
Qed.

Lemma index_pixel_nat (data : image) (a b : nat) :
  index_pixel data (Z.of_nat a, Z.of_nat b) = default black (lookup2 data a b).
Proof.
  unfold lookup2, index_pixel, wrap_index; simpl.
  destruct (Z.ltb_spec (Z.of_nat a) 0); [lia|].
  destruct (Z.ltb_spec (Z.of_nat b) 0); [lia|].
  rewrite !Nat2Z.id. by destruct (data !! a).
Qed.

(** The pixel that the indices (-1, 0) select: first column of the last
    row. *)
Lemma index_pixel_last (data : image) :
  index_pixel data ((-1)%Z, 0%Z)
  = default black
      (lookup2 data (Z.to_nat (-1 + Z.of_nat (length data))) 0).
Proof.
  unfold lookup2, index_pixel, wrap_index; simpl.
  by destruct (data !! _).
Qed.

Lemma lookup2_edt_indices (input : grid bool) i j :
  lookup2 (distance_transform_edt_indices input) i j
  = (λ _ : bool,
       match nearest (i, j) (background input) with
       | Some q => (Z.of_nat q.1, Z.of_nat q.2)
       | None => ((-1)%Z, 0%Z)
       end) <$> lookup2 input i j.
Proof. unfold distance_transform_edt_indices. apply lookup2_imap2d. Qed.

Lemma nearest_elem p cands q : nearest p cands = Some q → q ∈ cands.
Proof.
  destruct cands as [|c rest]; [done|]. simpl. intros [= <-].
  apply foldl_closer_elem.
Qed.

Lemma nearest_None p cands : nearest p cands = None → cands = [].
Proof. by destruct cands. Qed.

Lemma inverted_Some (mask : grid bool) i j :
  at2 false (invert mask) i j = true → lookup2 (invert mask) i j = Some true.
Proof. unfold at2. by destruct (lookup2 _ i j) as [[]|]. Qed.

(** A second pass reads the same colour as the first one did. *)
Lemma flood_source_flood (data : image) (mask : grid bool) i j :
  at2 false (invert mask) i j = true →
  rgb (flood_source (flood_fill_pad data mask) mask i j)
  = rgb (flood_source data mask i j).
Proof.
  intros Hinv%inverted_Some. unfold flood_source, at2.
  rewrite lookup2_edt_indices, Hinv; simpl.
  destruct (nearest (i, j) (background (invert mask))) as [q|] eqn:Hnear.
  - apply nearest_elem, elem_of_background in Hnear.
    rewrite !index_pixel_nat, lookup2_flood_fill_pad.
    unfold at2 at 1. rewrite Hnear; simpl.
    by destruct (lookup2 data q.1 q.2).
  - apply nearest_None in Hnear.
    rewrite !index_pixel_last, length_flood_fill_pad.
    rewrite lookup2_flood_fill_pad.
    remember (Z.to_nat (-1 + Z.of_nat (length data))) as a eqn:Ea.
    destruct (lookup2 data a 0) as [p|] eqn:Hp; simpl; [|done].
    destruct (at2 false (invert mask) a 0) eqn:Ha; [|done].
    apply inverted_Some in Ha. unfold flood_source, at2.
    rewrite lookup2_edt_indices, Ha, Hnear; simpl.
    by rewrite index_pixel_last, <- Ea, Hp.
Qed.

(** X2. Idempotence of the nearest-pixel fill: running [flood_fill_pad] a
    second time with the same mask changes no pixel, for every image and
    every mask (also a mask without any valid pixel). *)
Theorem flood_fill_pad_idempotent (data : image) (mask : grid bool)
    (i j : nat) :
  lookup2 (flood_fill_pad (flood_fill_pad data mask) mask) i j
  = lookup2 (flood_fill_pad data mask) i j.
Proof.
  rewrite (lookup2_flood_fill_pad (flood_fill_pad data mask)).
  destruct (at2 false (invert mask) i j) eqn:Hinv.
  - pose proof (flood_source_flood data mask i j Hinv) as Hsrc.
    rewrite lookup2_flood_fill_pad, Hinv.
    destruct (lookup2 data i j) as [p|]; simpl; [|done].
    unfold rgb in Hsrc. by injection Hsrc as -> -> ->.
  - by destruct (lookup2 (flood_fill_pad data mask) i j).
Qed.

(** X3. An invalid pixel that has one valid pixel strictly nearer than every
    other valid pixel receives exactly the colour of that pixel, whichever
    way the distance transform breaks ties elsewhere. *)
Theorem flood_fill_pad_unique_nearest (data : image) (mask : grid bool)
    (h w i j a b : nat) (q : pixel) :
  has_shape h w data → has_shape h w mask →
  lookup2 mask i j = Some false →
  lookup2 mask a b = Some true →
  lookup2 data a b = Some q →
  (∀ a' b', lookup2 mask a' b' = Some true → (a', b') ≠ (a, b) →
            (sqdist (i, j) (a, b) < sqdist (i, j) (a', b'))%Z) →
  rgb <$> lookup2 (flood_fill_pad data mask) i j = Some (rgb q).
Proof.
  intros Hdata Hmask Hij Hab Hq Hstrict.
  destruct (flood_source_nearest data mask h w i j Hdata Hmask Hij)
    as (a0 & b0 & q0 & Hv0 & Hq0 & Hsrc & Hmin); [by eauto|].
  assert ((a0, b0) = (a, b)) as [= -> ->].
  { destruct (decide ((a0, b0) = (a, b))) as [|Hne]; [done|].
    pose proof (Hstrict a0 b0 Hv0 Hne). pose proof (Hmin a b Hab). lia. }
  rewrite Hq in Hq0. injection Hq0 as <-.
  rewrite lookup2_flood_fill_pad, (invert_false _ _ _ Hij), Hsrc.
  destruct (proj2 (has_shape_lookup2 h w data i j Hdata)) as [p ->];
    [|done].
  apply (has_shape_lookup2 h w mask i j Hmask). by rewrite Hij.
Qed.

Lemma flood_fill_pad_unique_nearest_witness :
  rgb <$> lookup2 (flood_fill_pad [[Px 0 0 0 0; Px 9 9 9 0; Px 4 5 6 255]]
                                  [[false; false; true]]) 0 0
  = Some (rgb (Px 4 5 6 255)).
Proof.
  apply (flood_fill_pad_unique_nearest _ _ 1 3 0 0 0 2).
  - split; [reflexivity|repeat constructor].
  - split; [reflexivity|repeat constructor].
  - reflexivity.
  - reflexivity.
  - reflexivity.
  - intros [|[|a']] [|[|[|[|b']]]]; simpl; intros [=] Hne;
      first [done | by destruct Hne].
Defined.

(** X4. When all valid pixels share one colour and there is at least one,
    the two stages in sequence paint the whole image in that colour: the
    3x3 scenario for every size, mask and radius. *)
Theorem single_colour_fills_image (data : image) (mask : grid bool)
    (radius h w : nat) (v : Z * Z * Z) :
  has_shape h w data → has_shape h w mask →
  (∃ a b, lookup2 mask a b = Some true) →
  (∀ a b q, lookup2 mask a b = Some true → lookup2 data a b = Some q →
            rgb q = v) →
  ∀ i j, i < h → j < w →
    rgb <$> lookup2 (flood_fill_pad (smooth_pad data mask radius) mask) i j
    = Some v.
Proof.
  intros Hdata Hmask Hvalid Hcolour i j Hi Hj.
  pose proof (has_shape_smooth_pad h w data mask radius Hdata) as Hsmooth.
  destruct (proj2 (has_shape_lookup2 h w mask i j Hmask)) as [b Hb]; [done|].
  destruct (proj2 (has_shape_lookup2 h w data i j Hdata)) as [p Hp]; [done|].
  destruct b.
  - rewrite flood_fill_pad_valid, smooth_pad_valid, Hp by done. simpl.
    f_equal. by eapply Hcolour.
  - destruct (flood_source_nearest (smooth_pad data mask radius) mask h w
                i j Hsmooth Hmask Hb Hvalid)
      as (a & b & q & Hab & Hq & Hsrc & _).
    rewrite smooth_pad_valid in Hq by done.
    rewrite lookup2_flood_fill_pad, (invert_false _ _ _ Hb), Hsrc.
    destruct (proj2 (has_shape_lookup2 h w _ i j Hsmooth)) as [p' ->];
      [done|].
    change (Some (rgb q) = Some v). f_equal. by eapply Hcolour.
Qed.

Lemma single_colour_fills_image_witness :
  rgb <$> lookup2 (flood_fill_pad
                     (smooth_pad [[Px 0 0 0 0; Px 9 9 9 0; Px 4 5 6 255]]
                                 [[false; false; true]] 0)
                     [[false; false; true]]) 0 0
  = Some (4, 5, 6)%Z.
Proof.
  apply (single_colour_fills_image _ _ 0 1 3).
  - split; [reflexivity|repeat constructor].
  - split; [reflexivity|repeat constructor].
  - by exists 0, 2.
  - intros [|[|a']] [|[|[|[|b']]]] q; simpl; intros [=] [= <-]; reflexivity.
  - lia.
  - lia.
Defined.

(** ** What the averaging stage reads *)

(** Two windows over the same offsets, related cell by cell. *)
Lemma Forall2_bind_offsets (R : Q → Q → Prop) (l1 l2 : list Z)
    (f g : Z → Z → Q) :
  (∀ di dj, di ∈ l1 → dj ∈ l2 → R (f di dj) (g di dj)) →
  Forall2 R (di ← l1; dj ← l2; [f di dj]) (di ← l1; dj ← l2; [g di dj]).
Proof.
  induction l1 as [|di l1 IH]; intros Hrel; simpl; [constructor|].
  apply Forall2_app.
  - assert (∀ dj, dj ∈ l2 → R (f di dj) (g di dj)) as Hrow.
    { intros dj Hdj. apply Hrel; [|done]. apply elem_of_cons. by left. }
    clear Hrel IH. induction l2 as [|dj l2 IH]; simpl; [constructor|].
    constructor.
    + apply Hrow, elem_of_cons. by left.
    + apply IH. intros dj' Hdj'. apply Hrow, elem_of_cons. by right.
  - apply IH. intros di' dj Hdi' Hdj. apply Hrel; [|done].
    apply elem_of_cons. by right.
Qed.

Lemma Forall2_window (R : Q → Q → Prop) (g1 g2 : grid Q) (size i j : nat) :
  (∀ di dj, di ∈ offsets size → dj ∈ offsets size →
            R (padded g1 (Z.of_nat i + di) (Z.of_nat j + dj))
              (padded g2 (Z.of_nat i + di) (Z.of_nat j + dj))) →
  Forall2 R (window g1 size i j) (window g2 size i j).
Proof. intros Hrel. unfold window. by apply Forall2_bind_offsets. Qed.

Lemma lookup2_zip_with {A B C} (f : A → B → C) (g1 : grid A) (g2 : grid B)
    i j :
  lookup2 (zip_with (zip_with f) g1 g2) i j
  = match lookup2 g1 i j, lookup2 g2 i j with
    | Some x, Some y => Some (f x y)
    | _, _ => None
    end.
Proof.
  unfold lookup2. rewrite lookup_zip_with.
  destruct (g1 !! i) as [r1|]; simpl; [|done].
  destruct (g2 !! i) as [r2|]; simpl.
  - rewrite lookup_zip_with. destruct (r1 !! j); simpl; [|done].
    by destruct (r2 !! j).
  - by destruct (r1 !! j).
Qed.

Lemma at2_imap2d {A B} (d : B) (f : nat → nat → A → B) (g : grid A) i j :
  at2 d (imap2d f g) i j = default d (f i j <$> lookup2 g i j).
Proof. unfold at2. by rewrite lookup2_imap2d. Qed.

Lemma lookup2_generic_filter_sum (g : grid Q) (size i j : nat) :
  lookup2 (generic_filter_sum g size) i j
  = (λ _ : Q, Qsum (window g size i j)) <$> lookup2 g i j.
Proof. unfold generic_filter_sum. apply lookup2_imap2d. Qed.

Lemma generic_filter_sum_ext (g1 g2 : grid Q) (size : nat) :
  (∀ n m, lookup2 g1 n m = lookup2 g2 n m) →
  ∀ i j, lookup2 (generic_filter_sum g1 size) i j
         = lookup2 (generic_filter_sum g2 size) i j.
Proof.
  intros Hext i j. unfold generic_filter_sum.
  rewrite !lookup2_imap2d, Hext.
  assert (window g1 size i j = window g2 size i j) as ->; [|done].
  apply list_eq_Forall2, Forall2_window. intros di dj _ _.
  unfold padded, at2. by rewrite Hext.
Qed.

(** The weighted channel [channel * weight_mask] of the loop body. *)
Lemma weighted_channel_ext (data1 data2 : image) (mask : grid bool)
    (h w c : nat) :
  has_shape h w data1 → has_shape h w data2 →
  (∀ n m, lookup2 mask n m = Some true →
          lookup2 data1 n m = lookup2 data2 n m) →
  ∀ n m,
    lookup2 (zip_with (zip_with Qmult)
               (map2d (λ p, inject_Z (get_ch c p)) data1)
               (map2d float_of_bool mask)) n m
    = lookup2 (zip_with (zip_with Qmult)
                 (map2d (λ p, inject_Z (get_ch c p)) data2)
                 (map2d float_of_bool mask)) n m.
Proof.
  intros H1 H2 Hagree n m. rewrite !lookup2_zip_with, !lookup2_map2d.
  destruct (lookup2 mask n m) as [[]|] eqn:Hmask; simpl.
  - by rewrite (Hagree n m Hmask).
  - pose proof (has_shape_lookup2 h w data1 n m H1) as E1.
    pose proof (has_shape_lookup2 h w data2 n m H2) as E2.
    destruct (lookup2 data1 n m) as [p1|], (lookup2 data2 n m) as [p2|];
      simpl; try done.
    + unfold Qmult, inject_Z; simpl. by rewrite !Z.mul_0_r.
    + exfalso. apply (is_Some_None (A:=pixel)), E2, E1. by eexists.
    + exfalso. apply (is_Some_None (A:=pixel)), E1, E2. by eexists.
  - by destruct (lookup2 data1 n m), (lookup2 data2 n m).
Qed.

Lemma smooth_value_ext (data1 data2 : image) (mask : grid bool)
    (h w radius c i j : nat) :
  has_shape h w data1 → has_shape h w data2 →
  (∀ n m, lookup2 mask n m = Some true →
          lookup2 data1 n m = lookup2 data2 n m) →
  smooth_value data1 mask radius c i j = smooth_value data2 mask radius c i j.
Proof.
  intros H1 H2 Hagree.
  unfold smooth_value, avg_channel, divide_where_positive.
  rewrite !at2_imap2d.
  by rewrite (generic_filter_sum_ext _ _ _
                (weighted_channel_ext data1 data2 mask h w c H1 H2 Hagree)).
Qed.

(** X5. The colours [smooth_pad] writes depend on the valid pixels only:
    two images of one shape that agree wherever the mask is true get the
    same RGB at every position the mask covers, whatever colours their
    invalid pixels held on entry. *)
Theorem smooth_pad_ignores_invalid_colours (data1 data2 : image)
    (mask : grid bool) (h w radius i j : nat) :
  has_shape h w data1 → has_shape h w data2 →
  (∀ n m, lookup2 mask n m = Some true →
          lookup2 data1 n m = lookup2 data2 n m) →
  is_Some (lookup2 mask i j) →
  rgb <$> lookup2 (smooth_pad data1 mask radius) i j
  = rgb <$> lookup2 (smooth_pad data2 mask radius) i j.
Proof.
  intros H1 H2 Hagree [b Hb]. destruct b.
  - by rewrite !smooth_pad_valid, (Hagree i j Hb).
  - rewrite !lookup2_smooth_pad, (invert_false _ _ _ Hb).
    rewrite !(smooth_value_ext data1 data2 mask h w radius _ i j H1 H2 Hagree).
    pose proof (has_shape_lookup2 h w data1 i j H1) as E1.
    pose proof (has_shape_lookup2 h w data2 i j H2) as E2.
    destruct (lookup2 data1 i j) as [p1|], (lookup2 data2 i j) as [p2|];
      simpl; try done.
    + exfalso. apply (is_Some_None (A:=pixel)), E2, E1. by eexists.
    + exfalso. apply (is_Some_None (A:=pixel)), E1, E2. by eexists.
Qed.

Lemma smooth_pad_ignores_invalid_colours_witness :
  rgb <$> lookup2 (smooth_pad [[Px 1 2 3 255; Px 9 9 9 0]]
                              [[true; false]] 1) 0 1
  = rgb <$> lookup2 (smooth_pad [[Px 1 2 3 255; Px 70 80 90 0]]
                                [[true; false]] 1) 0 1.
Proof.
  apply (smooth_pad_ignores_invalid_colours _ _ _ 1 2).
  - split; [reflexivity|repeat constructor].
  - split; [reflexivity|repeat constructor].
  - intros [|[|n]] [|[|[|m]]]; simpl; intros [=]; reflexivity.
  - by eexists.
Defined.

(** X6. Idempotence of the averaging stage: a second [smooth_pad] with the
    same mask and radius changes no pixel of a well-formed image. *)
Theorem smooth_pad_idempotent (data : image) (mask : grid bool)
    (h w radius i j : nat) :
  has_shape h w data →
  lookup2 (smooth_pad (smooth_pad data mask radius) mask radius) i j
  = lookup2 (smooth_pad data mask radius) i j.
Proof.
  intros Hdata.
  rewrite (lookup2_smooth_pad (smooth_pad data mask radius)).
  rewrite !(smooth_value_ext (smooth_pad data mask radius) data mask h w
              radius _ i j (has_shape_smooth_pad h w data mask radius Hdata)
              Hdata (λ n m, smooth_pad_valid data mask radius n m)).
  rewrite lookup2_smooth_pad.
  destruct (lookup2 data i j) as [p|]; simpl; [|done].
  by destruct (at2 false (invert mask) i j).
Qed.

Lemma smooth_pad_idempotent_witness :
  lookup2 (smooth_pad (smooth_pad [[Px 1 2 3 255; Px 9 9 9 0]]
                                  [[true; false]] 1) [[true; false]] 1) 0 1
  = lookup2 (smooth_pad [[Px 1 2 3 255; Px 9 9 9 0]] [[true; false]] 1) 0 1.
Proof.
  apply (smooth_pad_idempotent _ _ 1 2).
  split; [reflexivity|repeat constructor].
Defined.

(** ** The average lies between the colours it averages *)

Lemma Qsum_cons (x : Q) (l : list Q) : Qsum (x :: l) = (x + Qsum l)%Q.
Proof. done. Qed.

Lemma Qsum_between (lo hi : Q) (l1 l2 : list Q) :
  Forall2 (λ x y, lo * y <= x ∧ x <= hi * y)%Q l1 l2 →
  (lo * Qsum l2 <= Qsum l1 ∧ Qsum l1 <= hi * Qsum l2)%Q.
Proof.
  induction 1 as [|x y l1 l2 [Hlo Hhi] _ [IHlo IHhi]].
  - unfold Qsum; simpl. rewrite !Qmult_0_r. split; apply Qle_refl.
  - rewrite !Qsum_cons, !Qmult_plus_distr_r.
    split; by apply Qplus_le_compat.
Qed.

Lemma Qsum_nonneg (l : list Q) : Forall (λ y, 0 <= y)%Q l → (0 <= Qsum l)%Q.
Proof.
  induction 1 as [|y l Hy _ IH]; [apply Qle_refl|].
  rewrite Qsum_cons. rewrite <- (Qplus_0_l 0). by apply Qplus_le_compat.
Qed.

Lemma Qsum_ge_elem (l : list Q) (x : Q) :
  Forall (λ y, 0 <= y)%Q l → x ∈ l → (x <= Qsum l)%Q.
Proof.
  induction 1 as [|y l Hy Hl IH]; intros Hx.
  - by apply elem_of_nil in Hx.
  - rewrite Qsum_cons. apply elem_of_cons in Hx as [->|Hx].
    + rewrite <- (Qplus_0_r y) at 1. apply Qplus_le_compat; [apply Qle_refl|].
      by apply Qsum_nonneg.
    + rewrite <- (Qplus_0_l x). apply Qplus_le_compat; [done|by apply IH].
Qed.

Lemma elem_of_window (g : grid Q) (size i j : nat) (x : Q) :
  x ∈ window g size i j
  ↔ ∃ di dj, di ∈ offsets size ∧ dj ∈ offsets size
             ∧ x = padded g (Z.of_nat i + di) (Z.of_nat j + dj).
Proof.
  unfold window. rewrite list_elem_of_bind. split.
  - intros (di & Hx & Hdi). apply list_elem_of_bind in Hx as (dj & Hx & Hdj).
    apply list_elem_of_singleton in Hx. eauto.
  - intros (di & dj & Hdi & Hdj & ->). exists di. split; [|done].
    apply list_elem_of_bind. exists dj. split; [|done].
    by apply list_elem_of_singleton.
Qed.

Lemma offsets_elem (radius : nat) (d : Z) :
  (- Z.of_nat radius ≤ d ≤ Z.of_nat radius)%Z → d ∈ offsets (2 * radius + 1).
Proof.
  intros Hd. unfold offsets. apply list_elem_of_fmap.
  exists (Z.to_nat (d + Z.of_nat radius)). split.
  - replace ((2 * radius + 1) / 2) with radius; [lia|].
    apply (Nat.div_unique _ 2 radius 1); lia.
  - apply elem_of_seq. lia.
Qed.

Lemma padded_weight_nonneg (mask : grid bool) (a b : Z) :
  (0 <= padded (map2d float_of_bool mask) a b)%Q.
Proof.
  unfold padded, at2. rewrite lookup2_map2d.
  destruct (_ && _); [|done].
  by destruct (lookup2 mask _ _) as [[]|].
Qed.

Section average_in_range.
Variables (data : image) (mask : grid bool) (h w radius c : nat).
Variables (i j : nat) (lo hi : Z).
Hypothesis data_shape : has_shape h w data.
Hypothesis mask_shape : has_shape h w mask.
Hypothesis reachable : ∃ a b,
  i ≤ a + radius ∧ a ≤ i + radius ∧ j ≤ b + radius ∧ b ≤ j + radius
  ∧ lookup2 mask a b = Some true.
Hypothesis in_range : ∀ a b q,
  i ≤ a + radius → a ≤ i + radius → j ≤ b + radius → b ≤ j + radius →
  lookup2 mask a b = Some true → lookup2 data a b = Some q →
  (lo ≤ get_ch c q ≤ hi)%Z.

Local Abbreviation weight_mask := (map2d float_of_bool mask).
Local Abbreviation weighted :=
  (zip_with (zip_with Qmult) (map2d (λ p, inject_Z (get_ch c p)) data)
            weight_mask).

Lemma weighted_cell_between (di dj : Z) :
  di ∈ offsets (2 * radius + 1) → dj ∈ offsets (2 * radius + 1) →
  (inject_Z lo * padded weight_mask (Z.of_nat i + di) (Z.of_nat j + dj)
   <= padded weighted (Z.of_nat i + di) (Z.of_nat j + dj)
   ∧ padded weighted (Z.of_nat i + di) (Z.of_nat j + dj)
     <= inject_Z hi
        * padded weight_mask (Z.of_nat i + di) (Z.of_nat j + dj))%Q.
Proof.
  intros Hdi%elem_of_offsets Hdj%elem_of_offsets.
  unfold padded, at2.
  destruct (_ && _) eqn:Hin.
  2:{ rewrite !Qmult_0_r. split; apply Qle_refl. }
  apply andb_prop in Hin as [Ha Hb]. apply Z.leb_le in Ha, Hb.
  rewrite lookup2_zip_with, !lookup2_map2d.
  set (a := Z.to_nat (Z.of_nat i + di)).
  set (b := Z.to_nat (Z.of_nat j + dj)).
  pose proof (has_shape_lookup2 h w data a b data_shape) as Edata.
  pose proof (has_shape_lookup2 h w mask a b mask_shape) as Emask.
  destruct (lookup2 mask a b) as [[]|] eqn:Hm; simpl.
  - destruct (lookup2 data a b) as [q|] eqn:Hq; simpl.
    + pose proof (in_range a b q ltac:(lia) ltac:(lia) ltac:(lia) ltac:(lia)
                    Hm Hq).
      unfold Qle, Qmult, inject_Z; simpl. lia.
    + exfalso. apply (is_Some_None (A:=pixel)), Edata, Emask. by eexists.
  - destruct (lookup2 data a b) as [q|]; simpl.
    + unfold Qle, Qmult, inject_Z; simpl. lia.
    + rewrite !Qmult_0_r. split; apply Qle_refl.
  - destruct (lookup2 data a b) as [q|]; simpl;
      rewrite !Qmult_0_r; split; apply Qle_refl.
Qed.

Lemma weight_sum_positive :
  (0 < Qsum (window weight_mask (2 * radius + 1) i j))%Q.
Proof.
  destruct reachable as (a & b & Ha1 & Ha2 & Hb1 & Hb2 & Hvalid).
  apply (Qlt_le_trans _ 1); [done|].
  apply Qsum_ge_elem.
  - apply Forall_forall. intros x (di & dj & _ & _ & ->)%elem_of_window.
    apply padded_weight_nonneg.
  - apply elem_of_window.
    exists (Z.of_nat a - Z.of_nat i)%Z, (Z.of_nat b - Z.of_nat j)%Z.
    split; [apply offsets_elem; lia|]. split; [apply offsets_elem; lia|].
    unfold padded, at2.
    replace (Z.of_nat i + (Z.of_nat a - Z.of_nat i))%Z with (Z.of_nat a)
      by lia.
    replace (Z.of_nat j + (Z.of_nat b - Z.of_nat j))%Z with (Z.of_nat b)
      by lia.
    destruct (Z.leb_spec 0 (Z.of_nat a)); [|lia].
    destruct (Z.leb_spec 0 (Z.of_nat b)); [|lia]. simpl.
    by rewrite !Nat2Z.id, lookup2_map2d, Hvalid.
Qed.

Lemma smooth_value_in_range :
  is_Some (lookup2 mask i j) →
  (0 ≤ lo)%Z → (hi ≤ 255)%Z →
  (lo ≤ smooth_value data mask radius c i j ≤ hi)%Z.
Proof.
  intros Hij Hlo Hhi.
  assert (is_Some (lookup2 data i j)) as [p Hp].
  { by apply (has_shape_lookup2 h w data i j data_shape),
             (has_shape_lookup2 h w mask i j mask_shape). }
  destruct Hij as [bij Hij].
  unfold smooth_value, avg_channel, divide_where_positive.
  rewrite at2_imap2d. unfold at2.
  rewrite !lookup2_generic_filter_sum.
  assert (is_Some (lookup2 weighted i j)) as [x ->].
  { rewrite lookup2_zip_with, !lookup2_map2d, Hp, Hij. by eexists. }
  assert (is_Some (lookup2 weight_mask i j)) as [y ->].
  { rewrite lookup2_map2d, Hij. by eexists. }
  cbn [fmap option_fmap option_map default].
  pose proof weight_sum_positive as Hpos.
  destruct (Qle_bool _ 0) eqn:Hle.
  { apply Qle_bool_iff in Hle. by apply Qlt_not_le in Hpos. }
  cbn [negb].
  destruct (Qsum_between (inject_Z lo) (inject_Z hi)
              (window weighted (2 * radius + 1) i j)
              (window weight_mask (2 * radius + 1) i j)) as [Hl Hh].
  { apply Forall2_window. intros di dj Hdi Hdj.
    by apply weighted_cell_between. }
  unfold uint8_of_float.
  pose proof (Qtruncate_bounds
                (Qsum (window weighted (2 * radius + 1) i j)
                 / Qsum (window weight_mask (2 * radius + 1) i j))
                lo hi Hlo
                ltac:(by apply Qle_shift_div_l)
                ltac:(by apply Qle_shift_div_r)) as Hb.
  unfold id. rewrite Z.mod_small by lia. done.
Qed.
End average_in_range.

(** X7. The weighted mean stays within the colours it averages, for every
    radius up to 127 (a window side of at most 255, where the [float32] sums
    of the source are exact): when an invalid pixel has a valid pixel within
    the radius, and channel [c] of every valid pixel within the radius lies in
    [lo, hi] (inside the [uint8] range), the value [smooth_pad] writes to
    channel [c] of that pixel lies in [lo, hi] too; with [lo = hi] it is that
    very colour. *)
Theorem smooth_pad_average_in_range (data : image) (mask : grid bool)
    (h w radius c i j : nat) (lo hi : Z) (p : pixel) :
  radius ≤ 127 →
  has_shape h w data → has_shape h w mask →
  c < 3 → (0 ≤ lo)%Z → (hi ≤ 255)%Z →
  lookup2 mask i j = Some false →
  (∃ a b, i ≤ a + radius ∧ a ≤ i + radius ∧ j ≤ b + radius ∧ b ≤ j + radius
          ∧ lookup2 mask a b = Some true) →
  (∀ a b q,
     i ≤ a + radius → a ≤ i + radius → j ≤ b + radius → b ≤ j + radius →
     lookup2 mask a b = Some true → lookup2 data a b = Some q →
     (lo ≤ get_ch c q ≤ hi)%Z) →
  lookup2 (smooth_pad data mask radius) i j = Some p →
  (lo ≤ get_ch c p ≤ hi)%Z.
Proof.
  intros _ Hdata Hmask Hc Hlo Hhi Hij Hreach Hrange.
  rewrite lookup2_smooth_pad, (invert_false _ _ _ Hij).
  destruct (lookup2 data i j) as [p0|]; [|done]. simpl. intros [= <-].
  pose proof (smooth_value_in_range data mask h w radius c i j lo hi
                Hdata Hmask Hreach Hrange ltac:(by eexists) Hlo Hhi) as Hv.
  destruct c as [|[|[|c]]]; simpl; [done..|lia].
Qed.

Lemma smooth_pad_average_in_range_witness :
  (100 ≤ get_ch 0 (Px 150 2 3 0) ≤ 200)%Z.
Proof.
  apply (smooth_pad_average_in_range
           [[Px 100 1 2 255; Px 9 9 9 0; Px 200 3 4 255]]
           [[true; false; true]] 1 3 1 0 0 1 100 200 (Px 150 2 3 0)).
  - lia.
  - split; [reflexivity|repeat constructor].
  - split; [reflexivity|repeat constructor].
  - lia.
  - lia.
  - lia.
  - reflexivity.
  - exists 0, 0. repeat split; lia.
  - intros [|[|a]] [|[|[|[|b]]]] q _ _ _ _; simpl; intros [=] [= <-];
      simpl; lia.
  - reflexivity.
Defined.

(** * Further properties of [pad_image] *)

Lemma has_shape_size {A B} h w (g : grid A) (g' : grid B) :
  has_shape h w g → has_shape h w g' → size g = size g'.
Proof.
  intros [<- Hg] [Hlen Hg']. unfold size. rewrite Hlen. f_equal.
  destruct g as [|row g], g' as [|row' g']; simplify_eq/=; [done|].
  apply Forall_cons in Hg as [-> _]. by apply Forall_cons in Hg' as [-> _].
Qed.

(** X8. A run with an external mask of the image's shape always saves an
    image: it has the shape of the input, alpha 255 at every pixel, and at
    every pixel whose mask value exceeds 128 the RGB of the input; the loaded
    array is not modified. *)
Theorem external_mask_run (gaussian_filter : grid Q → Q → grid Q)
    (data : image) (mask_img : grid Z) (radius : option nat)
    (blur_sigma : option Q) (auto_params : bool) (h w : nat) :
  has_shape h w data → has_shape h w mask_img →
  ∃ out,
    pad_image gaussian_filter data radius blur_sigma (Some mask_img)
              auto_params = (Saved out, data)
    ∧ has_shape h w out
    ∧ (∀ i j p, lookup2 out i j = Some p → chA p = 255%Z)
    ∧ (∀ i j v p,
         lookup2 mask_img i j = Some v → (128 < v)%Z →
         lookup2 data i j = Some p →
         lookup2 out i j = Some (Px (chR p) (chG p) (chB p) 255)).
Proof.
  intros Hdata Hmask.
  destruct (pad_image_external gaussian_filter data radius blur_sigma
              mask_img auto_params) as [r ->].
  unfold load_mask_image.
  rewrite decide_False by (intros Hne; apply Hne; by eapply has_shape_size).
  eexists. split; [done|]. split; [|split].
  - by apply has_shape_map2d, has_shape_flood_fill_pad, has_shape_smooth_pad.
  - intros i j p. unfold make_opaque. rewrite lookup2_map2d.
    destruct (lookup2 _ i j); simpl; [|done]. by intros [= <-].
  - intros i j v p Hv Hlt Hp. unfold make_opaque.
    rewrite lookup2_map2d, flood_fill_pad_valid, smooth_pad_valid, Hp; [done|..];
      rewrite lookup2_map2d, Hv; simpl; f_equal; by apply Z.ltb_lt.
Qed.

Lemma external_mask_run_witness :
  ∃ out,
    pad_image (λ field _, field) [[Px 1 2 3 0; Px 4 5 6 77]] None None
              (Some [[200; 128]]%Z) false
    = (Saved out, [[Px 1 2 3 0; Px 4 5 6 77]])
    ∧ has_shape 1 2 out
    ∧ (∀ i j p, lookup2 out i j = Some p → chA p = 255%Z)
    ∧ (∀ i j v p,
         lookup2 [[200; 128]]%Z i j = Some v → (128 < v)%Z →
         lookup2 [[Px 1 2 3 0; Px 4 5 6 77]] i j = Some p →
         lookup2 out i j = Some (Px (chR p) (chG p) (chB p) 255)).
Proof.
  apply (external_mask_run (λ field _, field) [[Px 1 2 3 0; Px 4 5 6 77]]
           [[200; 128]]%Z None None false 1 2).
  - split; [reflexivity|repeat constructor].
  - split; [reflexivity|repeat constructor].
Defined.

Lemma map2d_ext {A B} (f g : A → B) (d : grid A) :
  (∀ x, f x = g x) → map2d f d = map2d g d.
Proof.
  intros Hfg. unfold map2d. apply list_fmap_ext. intros _ row _.
  apply list_fmap_ext. intros _ x _. apply Hfg.
Qed.

Lemma map2d_map2d {A B C} (f : B → C) (g : A → B) (d : grid A) :
  map2d f (map2d g d) = map2d (λ x, f (g x)) d.
Proof.
  unfold map2d. rewrite <- list_fmap_compose. apply list_fmap_ext.
  intros _ row _; simpl. by rewrite <- list_fmap_compose.
Qed.

Lemma size_map2d {A B} (f : A → B) (d : grid A) : size (map2d f d) = size d.
Proof.
  unfold size, map2d. rewrite length_fmap. f_equal.
  destruct d; simpl; [done|]. by rewrite length_fmap.
Qed.

Lemma size_zero_transparent (data : image) :
  size (zero_transparent data) = size data.
Proof. apply size_map2d. Qed.

Lemma alpha_zero_transparent (data : image) :
  map2d chA (zero_transparent data) = map2d chA data.
Proof.
  unfold zero_transparent. rewrite map2d_map2d. apply map2d_ext.
  intros p. by destruct (chA p <? 255)%Z.
Qed.

Lemma zero_transparent_idempotent (data : image) :
  zero_transparent (zero_transparent data) = zero_transparent data.
Proof.
  unfold zero_transparent. rewrite map2d_map2d. apply map2d_ext.
  intros p. destruct (chA p <? 255)%Z eqn:Hlt; simpl; by rewrite Hlt.
Qed.

Lemma zero_transparent_opaque (data : image) :
  forallb (forallb (λ a, a =? 255)%Z) (map2d chA data) = true →
  zero_transparent data = data.
Proof.
  intros Hall. unfold zero_transparent, map2d.
  rewrite <- (list_fmap_id data) at 2. apply list_fmap_ext.
  intros i row Hrow; simpl.
  rewrite <- (list_fmap_id row) at 2. apply list_fmap_ext.
  intros j p Hp; simpl.
  rewrite forallb_forall in Hall.
  specialize (Hall (chA <$> row)).
  rewrite forallb_forall in Hall.
  assert (chA p = 255%Z) as ->; [|done].
  apply Z.eqb_eq, Hall.
  - apply list_elem_of_In, list_elem_of_fmap. exists row. split; [done|].
    by eapply list_elem_of_lookup_2.
  - apply list_elem_of_In, list_elem_of_fmap. exists p. split; [done|].
    by eapply list_elem_of_lookup_2.
Qed.

(** X10. In the alpha-driven mode the colours stored under pixels that are
    not fully opaque never influence a run: the result on an image is the
    result on that image with those colours already set to zero. *)
Theorem hidden_colours_ignored (gaussian_filter : grid Q → Q → grid Q)
    (data : image) (radius : option nat) (blur_sigma : option Q)
    (auto_params : bool) :
  pad_image gaussian_filter data radius blur_sigma None auto_params
  = pad_image gaussian_filter (zero_transparent data) radius blur_sigma None
              auto_params.
Proof.
  unfold pad_image.
  rewrite zero_transparent_idempotent, !alpha_zero_transparent.
  rewrite size_zero_transparent.
  destruct (forallb _ (map2d chA data)) eqn:Hall; [|done].
  rewrite (zero_transparent_opaque data Hall).
  by destruct (auto_params || _); [destruct (auto_set_params _)|].
Qed.

Lemma pad_image_alpha (gaussian_filter : grid Q → Q → grid Q) (data : image)
    (radius : option nat) (blur_sigma : option Q) (auto_params : bool) :
  ∃ (r : nat) (s : Q),
    pad_image gaussian_filter data radius blur_sigma None auto_params
    = if forallb (forallb (λ a, a =? 255)%Z) (map2d chA data)
      then (NothingToPad, data)
      else
        let mask := map2d (λ a, a =? 255)%Z (map2d chA data) in
        let alpha := map2d chA (zero_transparent data) in
        (Saved (assign_alpha
                  (flood_fill_pad (smooth_pad (zero_transparent data) mask r)
                                  mask)
                  (faded_alpha alpha
                     (gaussian_filter (opaque_indicator alpha) s))),
         zero_transparent data).
Proof.
  unfold pad_image.
  destruct (auto_params || _); [destruct (auto_set_params _)|]; eauto.
Qed.

Lemma some_transparent_forallb (data : image) :
  (∃ i j p, lookup2 data i j = Some p ∧ chA p ≠ 255%Z) →
  forallb (forallb (λ a, a =? 255)%Z) (map2d chA data) = false.
Proof.
  intros (i & j & p & Hp & Hne). apply not_true_is_false. intros Hall.
  apply Hne.
  assert (lookup2 (map2d chA data) i j = Some (chA p)) as Ha
    by by rewrite lookup2_map2d, Hp.
  unfold lookup2 in Ha.
  destruct (map2d chA data !! i) as [row|] eqn:Hrow; [|done].
  rewrite forallb_forall in Hall.
  specialize (Hall row ltac:(by eapply list_elem_of_In,
                                       list_elem_of_lookup_2)).
  rewrite forallb_forall in Hall.
  by apply Z.eqb_eq, Hall, list_elem_of_In, (list_elem_of_lookup_2 _ j).
Qed.

Lemma opaque_mask_lookup (data : image) i j p :
  lookup2 data i j = Some p → chA p = 255%Z →
  lookup2 (map2d (λ a, a =? 255)%Z (map2d chA data)) i j = Some true
  ∧ lookup2 (zero_transparent data) i j = Some p.
Proof.
  intros Hp Ha. unfold zero_transparent.
  rewrite !lookup2_map2d, Hp; simpl. by rewrite Ha.
Qed.

(** X11. A run without a mask on an image that has a pixel of alpha other
    than 255 always saves an image of the input's shape in which every fully
    opaque pixel keeps its RGB; the loaded array is left with the RGB of
    every other pixel set to zero. *)
Theorem alpha_driven_run (gaussian_filter : grid Q → Q → grid Q)
    (data : image) (radius : option nat) (blur_sigma : option Q)
    (auto_params : bool) (h w : nat) :
  has_shape h w data →
  (∃ i j p, lookup2 data i j = Some p ∧ chA p ≠ 255%Z) →
  ∃ out,
    pad_image gaussian_filter data radius blur_sigma None auto_params
    = (Saved out, zero_transparent data)
    ∧ has_shape h w out
    ∧ ∀ i j p, lookup2 data i j = Some p → chA p = 255%Z →
               rgb <$> lookup2 out i j = Some (rgb p).
Proof.
  intros Hdata Htransparent.
  destruct (pad_image_alpha gaussian_filter data radius blur_sigma
              auto_params) as (r & s & ->).
  rewrite (some_transparent_forallb data Htransparent).
  eexists. split; [done|]. split.
  - unfold assign_alpha.
    by apply has_shape_imap2d, has_shape_flood_fill_pad,
             has_shape_smooth_pad, has_shape_map2d.
  - intros i j p Hp Ha.
    destruct (opaque_mask_lookup data i j p Hp Ha) as [Hmask Hzero].
    unfold assign_alpha.
    by rewrite lookup2_imap2d, flood_fill_pad_valid, smooth_pad_valid, Hzero.
Qed.

Lemma alpha_driven_run_witness :
  ∃ out,
    pad_image (λ field _, field) [[Px 1 2 3 255; Px 4 5 6 77]] None None None
              false
    = (Saved out, zero_transparent [[Px 1 2 3 255; Px 4 5 6 77]])
    ∧ has_shape 1 2 out
    ∧ ∀ i j p, lookup2 [[Px 1 2 3 255; Px 4 5 6 77]] i j = Some p →
               chA p = 255%Z → rgb <$> lookup2 out i j = Some (rgb p).
Proof.
  apply (alpha_driven_run (λ field _, field) [[Px 1 2 3 255; Px 4 5 6 77]]
           None None false 1 2).
  - split; [reflexivity|repeat constructor].
  - exists 0, 1, (Px 4 5 6 77). split; [reflexivity|discriminate].
Defined.

(** The sigma a run passes to the blur: the caller's, else the auto-derived
    one when [auto_params] is set or no radius was given either, else 3.0. *)
Lemma pad_image_alpha_sigma (gaussian_filter : grid Q → Q → grid Q)
    (data : image) (radius : option nat) (blur_sigma : option Q)
    (auto_params : bool) :
  ∃ r : nat,
    pad_image gaussian_filter data radius blur_sigma None auto_params
    = if forallb (forallb (λ a, a =? 255)%Z) (map2d chA data)
      then (NothingToPad, data)
      else
        let s :=
          match blur_sigma with
          | Some s => s
          | None =>
              if auto_params || bool_decide (radius = None)
              then (auto_set_params (size data)).2
              else 3%Q
          end in
        let mask := map2d (λ a, a =? 255)%Z (map2d chA data) in
        let alpha := map2d chA (zero_transparent data) in
        (Saved (assign_alpha
                  (flood_fill_pad (smooth_pad (zero_transparent data) mask r)
                                  mask)
                  (faded_alpha alpha
                     (gaussian_filter (opaque_indicator alpha) s))),
         zero_transparent data).
Proof.
  unfold pad_image.
  destruct radius, blur_sigma, auto_params;
    try destruct (auto_set_params (size data)); eexists; reflexivity.
Qed.

(** X12. Alpha monotonicity away from the degenerate fade: on an image of
    [uint8] alphas with a pixel of alpha other than 255, if the field the run
    gets from the blur (at the sigma the run uses) has the shape of the image
    and is not constant, every saved alpha is at least the original alpha and
    at most 255, so opaque pixels stay opaque. *)
Theorem alpha_never_decreases_unless_constant
    (gaussian_filter : grid Q → Q → grid Q) (data : image)
    (radius : option nat) (blur_sigma : option Q) (auto_params : bool)
    (h w : nat) :
  let sigma :=
    match blur_sigma with
    | Some s => s
    | None =>
        if auto_params || bool_decide (radius = None)
        then (auto_set_params (size data)).2
        else 3%Q
    end in
  let distance :=
    gaussian_filter (opaque_indicator (map2d chA data)) sigma in
  has_shape h w data →
  (∃ i j p, lookup2 data i j = Some p ∧ chA p ≠ 255%Z) →
  Forall (Forall (λ p, 0 ≤ chA p ≤ 255)%Z) data →
  has_shape h w distance →
  ¬ (grid_max distance == grid_min distance)%Q →
  ∃ out,
    (pad_image gaussian_filter data radius blur_sigma None auto_params).1
    = Saved out
    ∧ ∀ i j p, lookup2 data i j = Some p →
               ∃ p', lookup2 out i j = Some p'
                     ∧ (chA p ≤ chA p' ≤ 255)%Z.
Proof.
  intros sigma distance Hdata Htransparent Huint8 Hshape Hne.
  destruct (pad_image_alpha_sigma gaussian_filter data radius blur_sigma
              auto_params) as (r & ->).
  rewrite (some_transparent_forallb data Htransparent).
  cbv zeta. rewrite alpha_zero_transparent. fold sigma. fold distance.
  eexists. split; [done|]. intros i j p Hp.
  pose proof (lookup2_Forall _ _ _ _ _ Huint8 Hp) as Hrange. simpl in Hrange.
  destruct (proj2 (has_shape_lookup2 h w _ i j Hshape)) as [d Hd].
  { apply (has_shape_lookup2 h w data i j Hdata). by rewrite Hp. }
  destruct (faded_alpha_monotone_unless_constant (map2d chA data) distance
              i j (chA p) d ltac:(by rewrite lookup2_map2d, Hp) Hrange Hd Hne)
    as (a' & Ha' & Hbounds).
  unfold assign_alpha. rewrite lookup2_imap2d.
  destruct (proj2 (has_shape_lookup2 h w
                     (flood_fill_pad
                        (smooth_pad (zero_transparent data)
                           (map2d (λ a, a =? 255)%Z (map2d chA data)) r)
                        (map2d (λ a, a =? 255)%Z (map2d chA data))) i j
                     ltac:(by apply has_shape_flood_fill_pad,
                                    has_shape_smooth_pad, has_shape_map2d)))
    as [p1 ->].
  { apply (has_shape_lookup2 h w data i j Hdata). by rewrite Hp. }
  eexists. split; [done|]. simpl.
  by rewrite (at2_Some _ _ _ _ _ Ha').
Qed.

(** A blur that is constant at every sigma but the one this run uses. *)
Lemma alpha_never_decreases_unless_constant_witness :
  ∃ out,
    (pad_image (λ field sigma, if Qeq_bool sigma 2 then field else [[0; 0]]%Q)
               [[Px 1 2 3 255; Px 4 5 6 77]] (Some 1) (Some 2%Q) None
               false).1 = Saved out
    ∧ ∀ i j p, lookup2 [[Px 1 2 3 255; Px 4 5 6 77]] i j = Some p →
               ∃ p', lookup2 out i j = Some p'
                     ∧ (chA p ≤ chA p' ≤ 255)%Z.
Proof.
  apply (alpha_never_decreases_unless_constant
           (λ field sigma, if Qeq_bool sigma 2 then field else [[0; 0]]%Q)
           [[Px 1 2 3 255; Px 4 5 6 77]] (Some 1) (Some 2%Q) false 1 2).
  - split; [reflexivity|repeat constructor].
  - exists 0, 1, (Px 4 5 6 77). split; [reflexivity|discriminate].
  - repeat constructor; simpl; lia.
  - split; [reflexivity|repeat constructor].
  - vm_compute. discriminate.
Defined.

(** * Further properties of [auto_set_params] *)

Lemma clamped_range (x : Q) :
  (inject_Z 1 <= py_min 10 (py_max 1 x) ∧ py_min 10 (py_max 1 x) <= inject_Z 10)%Q.
Proof.
  unfold py_min, py_max.
  destruct (Qle_bool x 1) eqn:H1; simpl.
  - by vm_compute.
  - assert (1 < x)%Q as H1'.
    { apply Qnot_le_lt. intros Hle%Qle_bool_iff. congruence. }
    destruct (Qle_bool 10 x) eqn:H10; simpl; [by vm_compute|].
    split; [by apply Qlt_le_weak|].
    apply Qlt_le_weak, Qnot_le_lt. intros Hle%Qle_bool_iff.
    change (Qle_bool 10 x = true) in Hle. congruence.
Qed.

(** X13. Whatever the image size, the auto-derived radius is at least 2 and
    the auto-derived sigma lies between 1.0 and 10.0. *)
Theorem auto_set_params_bounds (w h : nat) :
  (2 ≤ (auto_set_params (w, h)).1)%Z
  ∧ (1 <= (auto_set_params (w, h)).2 ∧ (auto_set_params (w, h)).2 <= 10)%Q.
Proof.
  unfold auto_set_params; simpl. split; [apply Z.le_max_l|].
  destruct (clamped_range (inject_Z (Z.of_nat (Nat.max w h)) / 1024 * 3))
    as [Hlo Hhi].
  split; [by apply (round1_ge _ 1)|by apply (round1_le _ 10)].
Qed.

(** The rounded value is within one half of its argument, and a tie is
    rounded to an even integer. *)
Lemma round_half_even_spec (n : Z) (d : positive) :
  let k := round_half_even (n # d) in
  ((2 * k - 1) * Z.pos d ≤ 2 * n ≤ (2 * k + 1) * Z.pos d)%Z
  ∧ (2 * n = (2 * k + 1) * Z.pos d → Z.Even k)%Z
  ∧ (2 * n = (2 * k - 1) * Z.pos d → Z.Even k)%Z.
Proof.
  unfold round_half_even; simpl.
  pose proof (Z.div_mod n (Z.pos d) ltac:(lia)) as Hn.
  pose proof (Z.mod_pos_bound n (Z.pos d) ltac:(lia)) as Hr.
  set (q := (n / Z.pos d)%Z) in *. set (r := (n mod Z.pos d)%Z) in *.
  destruct (Z.compare_spec (2 * r) (Z.pos d)) as [Heq|Hlt|Hgt].
  - destruct (Z.even q) eqn:Heven.
    + apply Z.even_spec in Heven. split; [nia|]. split; [done|]. nia.
    + assert (Z.Even (q + 1)) as Hodd.
      { apply Z.even_spec. rewrite Z.add_1_r, Z.even_succ.
        by rewrite <- Z.negb_even, Heven. }
      split; [nia|]. split; [nia|done].
  - split; [nia|]. split; nia.
  - split; [nia|]. split; nia.
Qed.

Lemma round_half_even_mono (x y : Q) :
  (x <= y)%Q → (round_half_even x ≤ round_half_even y)%Z.
Proof.
  destruct x as [n1 d1], y as [n2 d2]. unfold Qle; simpl. intros Hle.
  destruct (round_half_even_spec n1 d1) as ([Hlo1 _] & _ & Hev1).
  destruct (round_half_even_spec n2 d2) as ([_ Hhi2] & Hev2 & _).
  set (k1 := round_half_even (n1 # d1)) in *.
  set (k2 := round_half_even (n2 # d2)) in *.
  destruct (Z_le_gt_dec k1 k2) as [|Hgt]; [done|]. exfalso.
  assert ((2 * k1 - 1) * (Z.pos d1 * Z.pos d2)
          ≤ 2 * (n1 * Z.pos d2))%Z as Ha by nia.
  assert (2 * (n2 * Z.pos d1)
          ≤ (2 * k2 + 1) * (Z.pos d1 * Z.pos d2))%Z as Hb by nia.
  assert (k1 = k2 + 1)%Z as Hk by nia.
  assert (2 * n1 = (2 * k1 - 1) * Z.pos d1)%Z as E1 by nia.
  assert (2 * n2 = (2 * k2 + 1) * Z.pos d2)%Z as E2 by nia.
  destruct (Hev1 E1) as [m1 Hm1]. destruct (Hev2 E2) as [m2 Hm2]. lia.
Qed.

Lemma round1_mono (x y : Q) : (x <= y)%Q → (round1 x <= round1 y)%Q.
Proof.
  intros Hle. unfold round1.
  assert (round_half_even (x * 10) ≤ round_half_even (y * 10))%Z as H.
  { apply round_half_even_mono. apply Qmult_le_compat_r; [done|].
    by unfold Qle. }
  unfold Qle; simpl. lia.
Qed.

Lemma clamped_mono (x y : Q) :
  (x <= y)%Q → (py_min 10 (py_max 1 x) <= py_min 10 (py_max 1 y))%Q.
Proof.
  intros Hle.
  destruct (clamped_range x) as [Hx1 Hx10], (clamped_range y) as [Hy1 Hy10].
  revert Hx1 Hx10 Hy1 Hy10. unfold py_min, py_max.
  destruct (Qle_bool x 1) eqn:X1, (Qle_bool y 1) eqn:Y1; simpl;
    try (destruct (Qle_bool 10 x) eqn:X10; simpl);
    try (destruct (Qle_bool 10 y) eqn:Y10; simpl);
    intros Hx1 Hx10 Hy1 Hy10; try done.
  all: try apply Qle_bool_iff in Y1; try apply Qle_bool_iff in X10.
  all: try (assert (x <= 1)%Q as Hx by exact (Qle_trans _ _ _ Hle Y1);
            apply Qle_bool_iff in Hx; congruence).
  all: try (assert (10 <= y)%Q as Hy by exact (Qle_trans _ _ _ X10 Hle);
            apply Qle_bool_iff in Hy; congruence).
  all: first [exact (Qle_trans _ _ _ Hle Y1)
             | exact (Qle_trans _ _ _ X10 Hle)].
Qed.

(** X14. The auto-derived parameters grow with the resolution: if the longer
    side of one image is at most the longer side of another, neither its
    radius nor its sigma is larger. *)
Theorem auto_set_params_monotone (w h w' h' : nat) :
  Nat.max w h ≤ Nat.max w' h' →
  ((auto_set_params (w, h)).1 ≤ (auto_set_params (w', h')).1)%Z
  ∧ ((auto_set_params (w, h)).2 <= (auto_set_params (w', h')).2)%Q.
Proof.
  intros Hle. unfold auto_set_params; simpl.
  set (m := Nat.max w h) in *. set (m' := Nat.max w' h') in *.
  assert (∀ c : positive,
            inject_Z (Z.of_nat m) / (Z.pos c # 1) * 3
            <= inject_Z (Z.of_nat m') / (Z.pos c # 1) * 3)%Q as Hx.
  { intros c. unfold Qle, Qdiv, Qmult, Qinv, inject_Z; simpl. nia. }
  split.
  - rewrite !int_of_float_floor.
    apply Z.max_le_compat_l, Qfloor_resp_le, (Hx 512%positive).
  - apply round1_mono, clamped_mono, (Hx 1024%positive).
Qed.

Lemma auto_set_params_monotone_witness :
  ((auto_set_params (640%nat, 480%nat)).1
   ≤ (auto_set_params (1024%nat, 2048%nat)).1)%Z
  ∧ ((auto_set_params (640%nat, 480%nat)).2
     <= (auto_set_params (1024%nat, 2048%nat)).2)%Q.
Proof.
  apply (auto_set_params_monotone 640 480 1024 2048).
  lia.
Defined.

(** * The averaging stage and the saved image *)

Lemma grid_ext {A} (h w : nat) (g1 g2 : grid A) :
  has_shape h w g1 → has_shape h w g2 →
  (∀ i j, lookup2 g1 i j = lookup2 g2 i j) → g1 = g2.
Proof.
  intros [Hlen1 Hrows1] [Hlen2 Hrows2] Hext. apply list_eq. intros i.
  destruct (g1 !! i) as [r1|] eqn:Hr1, (g2 !! i) as [r2|] eqn:Hr2.
  - f_equal. apply list_eq. intros j.
    specialize (Hext i j). unfold lookup2 in Hext. by rewrite Hr1, Hr2 in Hext.
  - apply lookup_lt_Some in Hr1. apply lookup_ge_None in Hr2. lia.
  - apply lookup_lt_Some in Hr2. apply lookup_ge_None in Hr1. lia.
  - done.
Qed.

Lemma valid_in_background (mask : grid bool) (a b : nat) :
  lookup2 mask a b = Some true → (a, b) ∈ background (invert mask).
Proof.
  intros Hab. apply elem_of_background. unfold invert; simpl.
  by rewrite lookup2_map2d, Hab.
Qed.

(** With a valid pixel in the mask, the second stage reads only pixels the
    first stage left alone. *)
Lemma flood_source_smooth (data : image) (mask : grid bool) radius i j :
  at2 false (invert mask) i j = true →
  background (invert mask) ≠ [] →
  flood_source (smooth_pad data mask radius) mask i j
  = flood_source data mask i j.
Proof.
  intros Hinv%inverted_Some Hbg. unfold flood_source, at2.
  rewrite lookup2_edt_indices, Hinv; simpl.
  destruct (nearest_spec (i, j) (background (invert mask)) Hbg)
    as (q & -> & Hq & _).
  apply elem_of_background in Hq. unfold invert in Hq.
  rewrite lookup2_map2d in Hq.
  rewrite !index_pixel_nat, smooth_pad_valid; [done|].
  by destruct (lookup2 mask q.1 q.2) as [[]|].
Qed.

Lemma fill_after_smooth (data : image) (mask : grid bool) (h w radius : nat)
    i j :
  has_shape h w data → has_shape h w mask →
  lookup2 (flood_fill_pad (smooth_pad data mask radius) mask) i j
  = (λ p, if at2 false (invert mask) i j
          then
            match background (invert mask) with
            | [] => Px 0 0 0 (chA p)
            | _ :: _ => Px (chR (flood_source data mask i j))
                           (chG (flood_source data mask i j))
                           (chB (flood_source data mask i j)) (chA p)
            end
          else p) <$> lookup2 data i j.
Proof.
  intros Hdata Hmask.
  rewrite lookup2_flood_fill_pad, lookup2_smooth_pad.
  destruct (lookup2 data i j) as [p|]; simpl; [|done].
  destruct (at2 false (invert mask) i j) eqn:Hinv; [|done]. simpl.
  destruct (background (invert mask)) as [|q0 bg] eqn:Hbg.
  - assert (∀ a b, lookup2 mask a b ≠ Some true) as Hnone.
    { intros a b Hab.
      pose proof (valid_in_background mask a b Hab) as Hin.
      rewrite Hbg in Hin. by apply elem_of_nil in Hin. }
    assert (rgb (flood_source (smooth_pad data mask radius) mask i j)
            = (0, 0, 0)%Z) as Hsrc.
    { unfold flood_source.
      destruct (index_pixel_cases (smooth_pad data mask radius)
                  (at2 (0, 0)%Z
                       (distance_transform_edt_indices (invert mask)) i j))
        as [->|(a & b & Hab)]; [done|].
      by apply (smooth_pad_all_invalid data mask radius h w a b). }
    unfold rgb in Hsrc. by injection Hsrc as -> -> ->.
  - by rewrite flood_source_smooth by (by rewrite ?Hbg).
Qed.

(** X15. The averaging stage leaves no trace once a valid pixel exists: the
    nearest-pixel fill overwrites every invalid pixel, and it reads valid
    pixels only, so [flood_fill_pad] after [smooth_pad] gives the image
    [flood_fill_pad] alone gives. *)
Theorem smooth_pad_overwritten (data : image) (mask : grid bool)
    (h w radius i j : nat) :
  has_shape h w data → has_shape h w mask →
  (∃ a b, lookup2 mask a b = Some true) →
  lookup2 (flood_fill_pad (smooth_pad data mask radius) mask) i j
  = lookup2 (flood_fill_pad data mask) i j.
Proof.
  intros Hdata Hmask (a & b & Hvalid).
  rewrite (fill_after_smooth data mask h w radius i j Hdata Hmask).
  rewrite lookup2_flood_fill_pad.
  destruct (background (invert mask)) as [|q0 bg] eqn:Hbg; [|done].
  pose proof (valid_in_background mask a b Hvalid) as Hin.
  rewrite Hbg in Hin. by apply elem_of_nil in Hin.
Qed.

Lemma smooth_pad_overwritten_witness :
  lookup2 (flood_fill_pad
             (smooth_pad [[Px 10 0 0 255; Px 9 9 9 0; Px 90 0 0 255]]
                         [[true; false; true]] 1)
             [[true; false; true]]) 0 1
  = lookup2 (flood_fill_pad [[Px 10 0 0 255; Px 9 9 9 0; Px 90 0 0 255]]
                            [[true; false; true]]) 0 1.
Proof.
  apply (smooth_pad_overwritten _ _ 1 3).
  - split; [reflexivity|repeat constructor].
  - split; [reflexivity|repeat constructor].
  - by exists 0, 0.
Defined.





(** * What a run with an external mask depends on *)

Lemma flood_source_valid_ext (data1 data2 : image) (mask : grid bool) i j :
  (∀ a b, lookup2 mask a b = Some true →
          rgb <$> lookup2 data1 a b = rgb <$> lookup2 data2 a b) →
  at2 false (invert mask) i j = true →
  background (invert mask) ≠ [] →
  rgb (flood_source data1 mask i j) = rgb (flood_source data2 mask i j).
Proof.
  intros Hagree Hinv%inverted_Some Hbg. unfold flood_source, at2.
  rewrite lookup2_edt_indices, Hinv; simpl.
  destruct (nearest_spec (i, j) (background (invert mask)) Hbg)
    as (q & -> & Hq & _).
  apply elem_of_background in Hq. unfold invert in Hq.
  rewrite lookup2_map2d in Hq.
  rewrite !index_pixel_nat.
  assert (lookup2 mask q.1 q.2 = Some true) as Hvalid
    by by destruct (lookup2 mask q.1 q.2) as [[]|].
  specialize (Hagree _ _ Hvalid).
  destruct (lookup2 data1 q.1 q.2), (lookup2 data2 q.1 q.2); simpl in *;
    [by apply (inj Some) in Hagree|done..].
Qed.

Lemma fill_ext (data1 data2 : image) (mask : grid bool) (h w r1 r2 : nat)
    i j :
  has_shape h w data1 → has_shape h w data2 → has_shape h w mask →
  (∀ a b, lookup2 mask a b = Some true →
          rgb <$> lookup2 data1 a b = rgb <$> lookup2 data2 a b) →
  rgb <$> lookup2 (flood_fill_pad (smooth_pad data1 mask r1) mask) i j
  = rgb <$> lookup2 (flood_fill_pad (smooth_pad data2 mask r2) mask) i j.
Proof.
  intros H1 H2 Hmask Hagree.
  rewrite (fill_after_smooth data1 mask h w r1 i j H1 Hmask).
  rewrite (fill_after_smooth data2 mask h w r2 i j H2 Hmask).
  pose proof (has_shape_lookup2 h w data1 i j H1) as E1.
  pose proof (has_shape_lookup2 h w data2 i j H2) as E2.
  pose proof (has_shape_lookup2 h w mask i j Hmask) as Em.
  destruct (lookup2 data1 i j) as [p1|] eqn:Hp1,
           (lookup2 data2 i j) as [p2|] eqn:Hp2; simpl; try done.
  - destruct (at2 false (invert mask) i j) eqn:Hinv.
    + destruct (background (invert mask)) as [|q0 bg] eqn:Hbg; [done|].
      f_equal. change (rgb (flood_source data1 mask i j)
                       = rgb (flood_source data2 mask i j)).
      apply flood_source_valid_ext; [done..|by rewrite Hbg].
    + destruct (proj2 Em) as [b Hb]; [apply E1; by eexists|].
      destruct b; [|by rewrite (invert_false _ _ _ Hb) in Hinv].
      specialize (Hagree i j Hb). by rewrite Hp1, Hp2 in Hagree.
  - exfalso. apply (is_Some_None (A:=pixel)), E2, E1. by eexists.
  - exfalso. apply (is_Some_None (A:=pixel)), E1, E2. by eexists.
Qed.

Lemma make_opaque_ext (g1 g2 : image) (h w : nat) :
  has_shape h w g1 → has_shape h w g2 →
  (∀ i j, rgb <$> lookup2 g1 i j = rgb <$> lookup2 g2 i j) →
  make_opaque g1 = make_opaque g2.
Proof.
  intros H1 H2 Hext. apply (grid_ext h w).
  - by apply has_shape_map2d.
  - by apply has_shape_map2d.
  - intros i j. unfold make_opaque. rewrite !lookup2_map2d.
    specialize (Hext i j).
    destruct (lookup2 g1 i j) as [p1|], (lookup2 g2 i j) as [p2|];
      simpl in *; try done.
    unfold rgb in Hext. by injection Hext as -> -> ->.
Qed.

Lemma threshold_valid (mask_img : grid Z) (a b : nat) :
  lookup2 (map2d (λ v, 128 <? v)%Z mask_img) a b = Some true →
  ∃ v, lookup2 mask_img a b = Some v ∧ (128 < v)%Z.
Proof.
  rewrite lookup2_map2d.
  destruct (lookup2 mask_img a b) as [v|]; simpl; [|done].
  intros [= Hv%Z.ltb_lt]. eauto.
Qed.

(** X17. With an external mask, what is saved depends only on the mask and
    on the colours of the pixels it marks (values above 128): two images of
    the mask's shape that agree in RGB on those pixels give the same saved
    image, whatever their other colours, their alpha, the radius, the sigma
    and the blur. *)
Theorem external_mask_reads_valid_pixels_only
    (gf1 gf2 : grid Q → Q → grid Q) (data1 data2 : image)
    (mask_img : grid Z) (radius1 radius2 : option nat)
    (sigma1 sigma2 : option Q) (auto1 auto2 : bool) (h w : nat) :
  has_shape h w data1 → has_shape h w data2 → has_shape h w mask_img →
  (∀ a b v, lookup2 mask_img a b = Some v → (128 < v)%Z →
            rgb <$> lookup2 data1 a b = rgb <$> lookup2 data2 a b) →
  (pad_image gf1 data1 radius1 sigma1 (Some mask_img) auto1).1
  = (pad_image gf2 data2 radius2 sigma2 (Some mask_img) auto2).1.
Proof.
  intros H1 H2 Hmask Hagree.
  destruct (pad_image_external gf1 data1 radius1 sigma1 mask_img auto1)
    as [r1 ->].
  destruct (pad_image_external gf2 data2 radius2 sigma2 mask_img auto2)
    as [r2 ->].
  unfold load_mask_image.
  rewrite !decide_False
    by (intros Hne; apply Hne; by eapply has_shape_size).
  simpl. f_equal. apply (make_opaque_ext _ _ h w).
  - by apply has_shape_flood_fill_pad, has_shape_smooth_pad.
  - by apply has_shape_flood_fill_pad, has_shape_smooth_pad.
  - intros i j. apply (fill_ext data1 data2 _ h w r1 r2 i j H1 H2).
    + by apply has_shape_map2d.
    + intros a b (v & Hv & Hlt)%threshold_valid. by eapply Hagree.
Qed.

Lemma external_mask_reads_valid_pixels_only_witness :
  (pad_image (λ field _, field) [[Px 1 2 3 0; Px 4 5 6 77]] None None
             (Some [[200; 128]]%Z) false).1
  = (pad_image (λ field _, field) [[Px 1 2 3 255; Px 90 80 70 9]] (Some 5)
               None (Some [[200; 128]]%Z) true).1.
Proof.
  apply (external_mask_reads_valid_pixels_only _ _ _ _ _ _ _ _ _ _ _ 1 2).
  - split; [reflexivity|repeat constructor].
  - split; [reflexivity|repeat constructor].
  - split; [reflexivity|repeat constructor].
  - intros [|[|a]] [|[|[|b]]] v; simpl; intros [= <-] Hlt;
      first [reflexivity | lia].
Defined.

(** X18. A run with an external mask is idempotent: feeding the saved image
    back with the same mask saves that image again, whatever parameters the
    second run is given. *)
Theorem external_mask_run_idempotent (gf1 gf2 : grid Q → Q → grid Q)
    (data out : image) (mask_img : grid Z) (radius1 radius2 : option nat)
    (sigma1 sigma2 : option Q) (auto1 auto2 : bool) (h w : nat) :
  has_shape h w data → has_shape h w mask_img →
  pad_image gf1 data radius1 sigma1 (Some mask_img) auto1
  = (Saved out, data) →
  pad_image gf2 out radius2 sigma2 (Some mask_img) auto2 = (Saved out, out).
Proof.
  intros Hdata Hmask.
  destruct (pad_image_external gf1 data radius1 sigma1 mask_img auto1)
    as [r1 ->].
  destruct (pad_image_external gf2 out radius2 sigma2 mask_img auto2)
    as [r2 ->].
  unfold load_mask_image.
  rewrite decide_False
    by (intros Hne; apply Hne; by eapply has_shape_size).
  intros [= <-].
  set (mask := map2d (λ v, 128 <? v)%Z mask_img).
  set (filled := flood_fill_pad (smooth_pad data mask r1) mask).
  assert (has_shape h w mask) as Hm by by apply has_shape_map2d.
  assert (has_shape h w filled) as Hfilled
    by by apply has_shape_flood_fill_pad, has_shape_smooth_pad.
  assert (has_shape h w (make_opaque filled)) as Hout
    by by apply has_shape_map2d.
  rewrite decide_False
    by (intros Hne; apply Hne; by eapply has_shape_size).
  f_equal. f_equal.
  apply (grid_ext h w).
  - by apply has_shape_map2d, has_shape_flood_fill_pad, has_shape_smooth_pad.
  - done.
  - intros i j.
    assert (∀ a b, rgb <$> lookup2 (make_opaque filled) a b
                   = rgb <$> lookup2 filled a b) as Hrgb.
    { intros a b. unfold make_opaque. rewrite lookup2_map2d.
      by destruct (lookup2 filled a b). }
    pose proof (fill_ext (make_opaque filled) data mask h w r2 r1 i j Hout
                  Hdata Hm) as Hfill.
    fold filled in Hfill.
    assert (rgb <$> lookup2
              (flood_fill_pad (smooth_pad (make_opaque filled) mask r2) mask)
              i j = rgb <$> lookup2 filled i j) as E.
    { apply Hfill. intros a b Hab. rewrite Hrgb. unfold filled.
      by rewrite flood_fill_pad_valid, smooth_pad_valid. }
    unfold make_opaque at 1 3. rewrite !lookup2_map2d.
    destruct (lookup2 (flood_fill_pad _ mask) i j) as [p1|],
             (lookup2 filled i j) as [p2|]; simpl in *; try done.
    unfold rgb in E. by injection E as -> -> ->.
Qed.

Lemma external_mask_run_idempotent_witness :
  pad_image (λ field _, field) [[Px 1 2 3 255; Px 1 2 3 255]] (Some 4) None
            (Some [[200; 128]]%Z) true
  = (Saved [[Px 1 2 3 255; Px 1 2 3 255]], [[Px 1 2 3 255; Px 1 2 3 255]]).
Proof.
  apply (external_mask_run_idempotent (λ field _, field) (λ field _, field)
           [[Px 1 2 3 0; Px 4 5 6 77]] _ [[200; 128]]%Z None (Some 4) None
           None false true 1 2).
  - split; [reflexivity|repeat constructor].
  - split; [reflexivity|repeat constructor].
  - reflexivity.
Defined.
